(** * gcfl-sim fast kernels: trimmed mean and sorted weighted mean

    A shallow embedding of [src/accel/cpp/fast_kernels.cpp] (namespace
    [gcfl_fast]) and proofs of the properties its specification states.

    - A C++ [double] is a primitive [float]: IEEE-754 binary64, every
      operation rounded to nearest even on its own.  [FloatAxioms] specifies
      the primitive operations by those of [SpecFloat]; the proofs about
      rounding go through that specification.
    - A [std::vector<double>] is a [list float].  A vector in a 64-bit
      address space holds fewer than [2^53] doubles, and the statements about
      [trimmed_mean], which converts a size to [double] and the product back
      through [llround], carry the hypothesis [size v < 2 ^ 53].
    - A [std::size_t] is a [Z]; where the source computes with one, the
      wrap-around modulo [2^64] is written out.
    - A call returns a double, throws, or has no defined behaviour (an
      out-of-range [llround], an out-of-bounds [operator[]]): the three
      constructors of [outcome]. *)

From Stdlib Require Import ZArith List Bool Lia String Permutation Sorted.
From Stdlib Require Import Uint63 Floats.
Import ListNotations.

Local Open Scope Z_scope.

(** ** Machine integers *)

Definition wrap64 (z : Z) : Z := z mod 2 ^ 64.

Definition LLONG_MIN : Z := - 2 ^ 63.
Definition LLONG_MAX : Z := 2 ^ 63 - 1.

(** ** Doubles *)

(** [std::isfinite]. *)
Definition isfinite (x : float) : bool := PrimFloat.is_finite x.

(** [std::numeric_limits<double>::quiet_NaN()]. *)
Definition quiet_NaN : float := PrimFloat.nan.

(** [static_cast<double>(n)] for a [std::size_t] [n]: the double nearest to
    [n].  Sizes of vectors are below [2^63], where the conversion is the one
    of 63-bit integers. *)
Definition size_to_double (n : Z) : float := PrimFloat.of_uint63 (Uint63.of_Z n).

(** [std::llround]: the nearest integer, halfway cases away from zero, as a
    [long long].  When the argument is not finite or the rounded value does
    not fit, the C library leaves the result unspecified: [None]. *)
Definition llround_magnitude (m : positive) (e : Z) : Z :=
  if 0 <=? e then Zpos m * 2 ^ e
  else (Zpos m + 2 ^ (- e - 1)) / 2 ^ (- e).

Definition llround (x : float) : option Z :=
  match Prim2SF x with
  | S754_zero _ => Some 0
  | S754_finite s m e =>
      let k := cond_Zopp s (llround_magnitude m e) in
      if (LLONG_MIN <=? k) && (k <=? LLONG_MAX) then Some k else None
  | S754_infinity _ | S754_nan => None
  end.

(** ** Vectors *)

(** [v.size()]. *)
Definition size (v : list float) : Z := Z.of_nat (List.length v).

(** [v.empty()]. *)
Definition empty (v : list float) : bool :=
  match v with [] => true | _ :: _ => false end.

(** [v.erase(std::remove_if(v.begin(), v.end(), p), v.end())]: the elements
    on which [p] is false, in their order. *)
Definition remove_if (p : float -> bool) (v : list float) : list float :=
  filter (fun x => negb (p x)) v.

(** [std::accumulate(v.begin(), v.end(), init)]: a left fold of [+]. *)
Definition accumulate (v : list float) (init : float) : float :=
  fold_left PrimFloat.add v init.

(** [std::sort(v.begin(), v.end())]: ascending for [operator<].  The standard
    leaves the order of equivalent elements open (among finite doubles only
    [-0.0] and [+0.0] are equivalent); the embedding inserts each element
    before the first strictly greater one. *)
Fixpoint sort_insert (x : float) (v : list float) : list float :=
  match v with
  | [] => [x]
  | y :: v' => if PrimFloat.ltb x y then x :: y :: v' else y :: sort_insert x v'
  end.

Definition sort (v : list float) : list float :=
  fold_right sort_insert [] v.

(** ** Outcomes of a call *)

Inductive exception : Type :=
  | invalid_argument (what : string).

Inductive outcome : Type :=
  | Ret (x : float)
  | Throw (e : exception)
  | Undefined.

(** ** The kernels *)

Definition filter_finite (v : list float) : list float :=
  remove_if (fun x => negb (isfinite x)) v.

Definition mean (v : list float) : float :=
  if empty v then quiet_NaN
  else
    let s := accumulate v 0%float in
    PrimFloat.div s (size_to_double (size v)).

(** Step 2 of both kernels: [if (!assume_sorted) std::sort(...)]. *)
Definition sort_unless (assume_sorted : bool) (v : list float) : list float :=
  if negb assume_sorted then sort v else v.

(** Lines 26-28: the normalised trim ratio. *)
Definition clamp_ratio (trim_ratio : float) : float :=
  let r := if isfinite trim_ratio then trim_ratio else 0%float in
  let r := if PrimFloat.ltb r 0%float then 0%float else r in
  let r := if PrimFloat.ltb 0.5%float r then 0.5%float else r in
  r.

(** Lines 34-39: [iters] rounds of [{ s += v[i]; ++cnt; }] followed by
    [++i], started at index [i]; [None] when an index is out of bounds.
    Neither [++i] nor [++cnt] can wrap: [i] stays below the loop bound, which
    is a [std::size_t], and [cnt] counts the rounds. *)
Fixpoint sum_loop (v : list float) (iters : nat) (i : Z) (s : float) (cnt : Z)
  : option (float * Z) :=
  match iters with
  | O => Some (s, cnt)
  | S iters' =>
      match nth_error v (Z.to_nat i) with
      | None => None
      | Some x => sum_loop v iters' (i + 1) (PrimFloat.add s x) (cnt + 1)
      end
  end.

(** Line 31: the trim count as the [long long] that [llround] returns. *)
Definition trim_count (r : float) (n : Z) : option Z :=
  llround (PrimFloat.mul r (size_to_double n)).

Definition trimmed_mean (v : list float) (trim_ratio : float) (assume_sorted : bool)
  : outcome :=
  let v := filter_finite v in
  if empty v then Ret quiet_NaN
  else
    let v := sort_unless assume_sorted v in
    let r := clamp_ratio trim_ratio in
    let n := size v in
    match trim_count r n with
    | None => Undefined
    | Some ll =>
        let k := wrap64 ll in
        if n <=? wrap64 (2 * k) then Ret (mean v)
        else
          (* for (i = k; i < n - k; ++i) *)
          match sum_loop v (Z.to_nat (wrap64 (n - k) - k)) k 0%float 0 with
          | None => Undefined
          | Some (s, cnt) =>
              Ret (PrimFloat.div s (size_to_double (if 0 <? cnt then cnt else 1)))
          end
    end.

(** Lines 50-52: negative and non-finite weights become [0.0]. *)
Definition clip_weight (x : float) : float :=
  if negb (isfinite x) || PrimFloat.ltb x 0%float then 0%float else x.

Definition clip_weights (w : list float) : list float := map clip_weight w.

(** Line 59: [for (auto& x : w) x /= s;]. *)
Definition normalize_weights (w : list float) (s : float) : list float :=
  map (fun x => PrimFloat.div x s) w.

(** Lines 61-64: [iters] rounds of [dot += v[i] * w[i]] from index [i]. *)
Fixpoint dot_loop (v w : list float) (iters : nat) (i : Z) (dot : float)
  : option float :=
  match iters with
  | O => Some dot
  | S iters' =>
      match nth_error v (Z.to_nat i), nth_error w (Z.to_nat i) with
      | Some x, Some y =>
          dot_loop v w iters' (i + 1) (PrimFloat.add dot (PrimFloat.mul x y))
      | _, _ => None
      end
  end.

Definition length_mismatch : string := "weights length must match values length".

Definition sorted_weighted_mean (v w : list float) (assume_sorted : bool) : outcome :=
  let v := filter_finite v in
  if empty v then Ret quiet_NaN
  else
    let v := sort_unless assume_sorted v in
    let w := clip_weights w in
    if negb (size w =? size v) then Throw (invalid_argument length_mismatch)
    else
      let s := accumulate w 0%float in
      if PrimFloat.leb s 0%float then Ret (mean v)
      else
        let w := normalize_weights w s in
        match dot_loop v w (Z.to_nat (size v)) 0 0%float with
        | None => Undefined
        | Some dot => Ret dot
        end.

(** ** The Python binding

    [src/accel/cpp/pybind_module.cpp] exposes the two kernels to Python as
    [gcfl_fast.trimmed_mean] and [gcfl_fast.sorted_weighted].  Of the
    [py::buffer_info] that [a.request()] returns, [as_vector] reads three
    fields: the number of dimensions, the number of elements and the address
    of the data.  [ptr] stands for the memory at that address: the doubles
    that can be read from it, in address order.  The strides are never
    looked at. *)

Record buffer_info : Type :=
  { ndim : Z; buffer_size : Z; ptr : list float }.

(** [as_vector]: nothing for a 0-dimensional array; otherwise the [n] doubles
    at [data, data + n) with [n = static_cast<std::size_t>(info.size)].
    Reading past the memory at [ptr] has no defined behaviour ([None]). *)
Definition as_vector (info : buffer_info) : option (list float) :=
  if ndim info =? 0 then Some []
  else
    let n := wrap64 (buffer_size info) in
    if n <=? size (ptr info) then Some (firstn (Z.to_nat n) (ptr info)) else None.

(** The literal [0.10] of [py::arg("trim_ratio") = 0.10]. *)
Definition default_trim_ratio : float := 0x1.999999999999ap-4.

(** [gcfl_fast.trimmed_mean(values, trim_ratio = 0.10, assume_sorted = false)];
    an argument that the caller leaves out is [None]. *)
Definition py_trimmed_mean
  (values : buffer_info) (trim_ratio : option float) (assume_sorted : option bool)
  : outcome :=
  match as_vector values with
  | None => Undefined
  | Some v =>
      trimmed_mean v
        (match trim_ratio with Some r => r | None => default_trim_ratio end)
        (match assume_sorted with Some b => b | None => false end)
  end.

(** [gcfl_fast.sorted_weighted(values, weights, assume_sorted = false)]: the
    values are read first, then the weights. *)
Definition py_sorted_weighted
  (values weights : buffer_info) (assume_sorted : option bool) : outcome :=
  match as_vector values with
  | None => Undefined
  | Some v =>
      match as_vector weights with
      | None => Undefined
      | Some w =>
          sorted_weighted_mean v w
            (match assume_sorted with Some b => b | None => false end)
      end
  end.

(** ** Notions the specification uses *)

(** Modelled from the spec: a finite value is "a floating-point number that
    is neither NaN nor +-infinity" (glossary); [x] is non-finite when it is a
    NaN or an infinity of either sign.  The class of [x] is read off its
    IEEE-754 datum, not computed by [isfinite]. *)
Definition non_finite (x : float) : bool :=
  match Prim2SF x with
  | S754_nan | S754_infinity _ => true
  | S754_zero _ | S754_finite _ _ _ => false
  end.

(** Modelled from the spec: FiniteFilter (section 4.1), "the sequence with
    those non-finite values removed": only the finite values, in their
    relative order. *)
Definition FiniteFilter (v : list float) : list float :=
  filter (fun x => negb (non_finite x)) v.

(** The elements at positions [[lo, hi)] of [v], in their order. *)
Definition slice (v : list float) (lo hi : Z) : list float :=
  firstn (Z.to_nat (hi - lo)) (skipn (Z.to_nat lo) v).

(** [k] is the integer nearest to the double [x], the one of larger
    magnitude when [x] lies halfway between two integers.  For
    [x = +-m * 2^e] with [e < 0] the magnitude [a] of [k] is the integer
    with [m/2^-e - 1/2 < a <= m/2^-e + 1/2]. *)
Definition rounds_half_away (x : spec_float) (k : Z) : Prop :=
  match x with
  | S754_zero _ => k = 0
  | S754_finite s m e =>
      exists a, k = cond_Zopp s a
        /\ if 0 <=? e then a = Zpos m * 2 ^ e
           else 2 * Zpos m - 2 ^ (- e) < 2 * a * 2 ^ (- e) <= 2 * Zpos m + 2 ^ (- e)
  | S754_infinity _ | S754_nan => False
  end.

(** A double that is [+-0.0] or positive and finite; one that may also be
    [+infinity]. *)
Definition nonneg_finite (x : spec_float) : Prop :=
  match x with
  | S754_zero _ | S754_finite false _ _ => True
  | _ => False
  end.

Definition nonneg (x : spec_float) : Prop :=
  match x with
  | S754_zero _ | S754_finite false _ _ | S754_infinity false => True
  | _ => False
  end.

(** [x <= y] on doubles, as [operator<=] decides it. *)
Definition sf_le (x y : spec_float) : Prop := SFleb x y = true.

(** ** Binary64 rounding, as [SpecFloat] specifies it *)

Abbreviation fexp64 := (SpecFloat.fexp prec emax).
Abbreviation bra64 := (binary_round_aux prec emax).

(** The value that [binary_round_aux] returns for the final mantissa and
    exponent. *)
Definition sf_of_rounded (s : bool) (m e : Z) : spec_float :=
  match m with
  | Z0 => S754_zero s
  | Zpos p => if e <=? 971 then S754_finite s p e else S754_infinity s
  | Zneg _ => S754_nan
  end.

(** * Binary64 arithmetic

    Facts about [SpecFloat]'s binary64 operations, to which the primitive
    operations on [float] are specified equal. *)

Module Binary64.

(** Positivity of a power of two with a non-negative exponent. *)
Ltac pow_pos := apply Z.pow_pos_nonneg; lia.

(** ** Digits, shifts and rounding *)

Lemma digits2_pos_bounds (m : positive) :
  2 ^ (Zpos (digits2_pos m) - 1) <= Zpos m < 2 ^ Zpos (digits2_pos m).
Proof.
  induction m as [m IH|m IH|]; cbn [digits2_pos].
  - rewrite Pos2Z.inj_succ.
    replace (Z.succ (Zpos (digits2_pos m)) - 1) with (Zpos (digits2_pos m) - 1 + 1) by lia.
    rewrite Z.pow_succ_r by lia. rewrite Z.pow_add_r by lia. lia.
  - rewrite Pos2Z.inj_succ.
    replace (Z.succ (Zpos (digits2_pos m)) - 1) with (Zpos (digits2_pos m) - 1 + 1) by lia.
    rewrite Z.pow_succ_r by lia. rewrite Z.pow_add_r by lia. lia.
  - simpl. lia.
Qed.

Lemma Zdigits2_bounds (m : Z) :
  0 < m -> 2 ^ (Zdigits2 m - 1) <= m < 2 ^ Zdigits2 m.
Proof.
  destruct m as [|p|p]; try lia. intros _. apply digits2_pos_bounds.
Qed.

Lemma Zdigits2_nonneg m : 0 <= Zdigits2 m.
Proof. destruct m; simpl; lia. Qed.

Lemma Zdigits2_le_of_lt (m b : Z) :
  0 <= b -> 0 <= m < 2 ^ b -> Zdigits2 m <= b.
Proof.
  intros Hb [H0 H].
  destruct (Z.eq_dec m 0) as [->|]; [simpl; lia|].
  destruct (Zdigits2_bounds m ltac:(lia)) as [Hl _].
  destruct (Z_le_gt_dec (Zdigits2 m) b); [assumption|].
  assert (2 ^ b <= 2 ^ (Zdigits2 m - 1)) by (apply Z.pow_le_mono_r; lia). lia.
Qed.

Lemma Zdigits2_ge_of_le (m b : Z) :
  0 <= b -> 2 ^ b <= m -> b + 1 <= Zdigits2 m.
Proof.
  intros Hb H.
  assert (0 < 2 ^ b) by pow_pos.
  destruct (Zdigits2_bounds m ltac:(lia)) as [_ Hu].
  destruct (Z_le_gt_dec (b + 1) (Zdigits2 m)); [assumption|].
  pose proof (Zdigits2_nonneg m).
  assert (2 ^ Zdigits2 m <= 2 ^ b) by (apply Z.pow_le_mono_r; lia). lia.
Qed.

Lemma shr_1_m (r : shr_record) :
  0 <= shr_m r -> shr_m (shr_1 r) = shr_m r / 2 /\ 0 <= shr_m (shr_1 r).
Proof.
  destruct r as [m r s]. cbn [shr_m]. intros H.
  destruct m as [|[p|p|]|p]; cbn [shr_1 shr_m]; try lia.
  all: split; [|lia].
  - reflexivity.
  - apply Z.div_unique with (r := 1); lia.
  - apply Z.div_unique with (r := 0); lia.
  - reflexivity.
Qed.

Lemma pow2_xO (p : positive) : 2 ^ Zpos p~0 = 2 ^ Zpos p * 2 ^ Zpos p.
Proof. rewrite <- Z.pow_add_r by lia. f_equal. lia. Qed.

Lemma pow2_xI (p : positive) : 2 ^ Zpos p~1 = 2 * 2 ^ Zpos p * 2 ^ Zpos p.
Proof.
  rewrite <- Z.mul_assoc, <- Z.pow_add_r, <- Z.pow_succ_r by lia. f_equal. lia.
Qed.

Lemma iter_pos_shr_1_m (p : positive) :
  forall r, 0 <= shr_m r ->
    shr_m (iter_pos shr_1 p r) = shr_m r / 2 ^ Zpos p
    /\ 0 <= shr_m (iter_pos shr_1 p r).
Proof.
  induction p as [p IH|p IH|]; intros r Hr; cbn [iter_pos].
  - destruct (shr_1_m r Hr) as [E1 P1].
    destruct (IH _ P1) as [E2 P2].
    destruct (IH _ P2) as [E3 P3].
    split; [|assumption].
    assert (0 < 2 ^ Zpos p) by pow_pos.
    rewrite E3, E2, E1, pow2_xI.
    rewrite !Z.div_div by lia. f_equal. lia.
  - destruct (IH _ Hr) as [E2 P2].
    destruct (IH _ P2) as [E3 P3].
    split; [|assumption].
    assert (0 < 2 ^ Zpos p) by pow_pos.
    rewrite E3, E2, pow2_xO.
    rewrite !Z.div_div by lia. reflexivity.
  - destruct (shr_1_m r Hr) as [E1 P1]. split; [|assumption].
    rewrite E1. reflexivity.
Qed.

Lemma shr_record_of_loc_m m l : shr_m (shr_record_of_loc m l) = m.
Proof. destruct l as [|[]]; reflexivity. Qed.

Lemma loc_of_shr_record_of_loc m l :
  loc_of_shr_record (shr_record_of_loc m l) = l.
Proof. destruct l as [|[]]; reflexivity. Qed.

(** The mantissa and the exponent after [shr]. *)
Lemma shr_m_e (r : shr_record) (e n : Z) :
  0 <= shr_m r ->
  shr_m (fst (shr r e n)) = shr_m r / 2 ^ Z.max n 0
  /\ snd (shr r e n) = e + Z.max n 0
  /\ 0 <= shr_m (fst (shr r e n)).
Proof.
  intros Hr. destruct n as [|p|p]; cbn [shr fst snd].
  - change (Z.max 0 0) with 0. rewrite Z.pow_0_r, Z.div_1_r. lia.
  - destruct (iter_pos_shr_1_m p r Hr) as [E P].
    replace (Z.max (Zpos p) 0) with (Zpos p) by lia. repeat split; auto.
  - change (Z.max (Zneg p) 0) with 0. rewrite Z.pow_0_r, Z.div_1_r. lia.
Qed.

Lemma round_nearest_even_bounds (m : Z) (l : location) :
  m <= round_nearest_even m l <= m + 1.
Proof.
  destruct l as [|[]]; cbn [round_nearest_even]; try lia.
  destruct (Z.even m); lia.
Qed.

Lemma fexp64_eq (x : Z) : fexp64 x = Z.max (x - 53) (-1074).
Proof. reflexivity. Qed.

Lemma binary_round_aux_steps (s : bool) (M E : Z) (l : location) :
  0 <= M ->
  exists m1 e1 m1' m2 e2,
    e1 = Z.max E (fexp64 (Zdigits2 M + E))
    /\ m1 = M / 2 ^ (e1 - E)
    /\ m1 <= m1' <= m1 + 1
    /\ (e1 = E -> m1' = round_nearest_even M l)
    /\ m1 < 2 ^ 53
    /\ -1074 <= e1
    /\ ((m1' = 2 ^ 53 /\ m2 = 2 ^ 52 /\ e2 = e1 + 1)
        \/ (m1' < 2 ^ 53 /\ m2 = m1' /\ e2 = e1))
    /\ bra64 s M E l = sf_of_rounded s m2 e2.
Proof.
  intros HM. unfold binary_round_aux, shr_fexp.
  set (d := Zdigits2 M).
  assert (Hd0 : 0 <= d) by apply Zdigits2_nonneg.
  assert (HMd : M < 2 ^ d).
  { destruct (Z.eq_dec M 0) as [->|]; [pow_pos|].
    apply Zdigits2_bounds. lia. }
  set (n := fexp64 (d + E) - E).
  pose proof (shr_m_e (shr_record_of_loc M l) E n) as H1.
  rewrite shr_record_of_loc_m in H1. specialize (H1 HM).
  destruct (shr (shr_record_of_loc M l) E n) as [r1 e1] eqn:Hs1.
  cbn [fst snd] in H1. destruct H1 as (Hm1 & He1 & Hp1).
  set (m1' := round_nearest_even (shr_m r1) (loc_of_shr_record r1)).
  pose proof (round_nearest_even_bounds (shr_m r1) (loc_of_shr_record r1)) as Hr.
  fold m1' in Hr.
  assert (He1' : e1 = Z.max E (fexp64 (d + E))) by lia.
  assert (Hemin : -1074 <= e1).
  { rewrite He1'. rewrite fexp64_eq. lia. }
  assert (Hm1lt : shr_m r1 < 2 ^ 53).
  { rewrite Hm1. replace (Z.max n 0) with (e1 - E) by lia.
    apply Z.div_lt_upper_bound; [pow_pos|].
    rewrite <- Z.pow_add_r by (rewrite ?fexp64_eq in *; lia).
    apply Z.lt_le_trans with (1 := HMd).
    apply Z.pow_le_mono_r; [lia|]. rewrite He1', fexp64_eq. lia. }
  set (n' := fexp64 (Zdigits2 m1' + e1) - e1).
  assert (Hm1'0 : 0 <= m1') by lia.
  pose proof (shr_m_e (shr_record_of_loc m1' loc_Exact) e1 n') as H2.
  rewrite shr_record_of_loc_m in H2. specialize (H2 Hm1'0).
  destruct (shr (shr_record_of_loc m1' loc_Exact) e1 n') as [r2 e2] eqn:Hs2.
  cbn [fst snd] in H2. destruct H2 as (Hm2 & He2 & Hp2).
  exists (shr_m r1), e1, m1', (shr_m r2), e2.
  repeat (split; [first [assumption | lia]|]).
  split.
  { rewrite Hm1. f_equal. f_equal. lia. }
  split; [assumption|].
  split.
  { intros HeE. unfold m1'.
    assert (Hn : n <= 0) by lia.
    assert (Hr1 : r1 = shr_record_of_loc M l).
    { destruct n; cbn [shr] in Hs1; try lia; congruence. }
    rewrite Hr1, shr_record_of_loc_m, loc_of_shr_record_of_loc. reflexivity. }
  repeat (split; [first [assumption | lia]|]).
  split.
  - assert (Hcase : m1' = 2 ^ 53 \/ m1' < 2 ^ 53) by lia.
    destruct Hcase as [Heq|Hlt].
    + left. split; [assumption|].
      assert (Hn' : n' = 1).
      { unfold n'. rewrite Heq. change (Zdigits2 (2 ^ 53)) with 54.
        rewrite fexp64_eq. lia. }
      rewrite Hn' in Hm2, He2. rewrite Heq in Hm2.
      split; [rewrite Hm2; reflexivity | lia].
    + right. split; [assumption|].
      assert (Hn' : n' <= 0).
      { unfold n'. rewrite fexp64_eq.
        pose proof (Zdigits2_le_of_lt m1' 53 ltac:(lia) ltac:(lia)). lia. }
      replace (Z.max n' 0) with 0 in Hm2, He2 by lia.
      rewrite Z.pow_0_r, Z.div_1_r in Hm2. split; lia.
  - unfold sf_of_rounded. destruct (shr_m r2); reflexivity.
Qed.

(** Rounding does not cross a power of two from below: a value under [2^B]
    rounds to at most [2^B]. *)
Lemma binary_round_aux_upper (s : bool) (M E : Z) (l : location) (B : Z) :
  0 <= M < 2 ^ (B - E) -> E <= B -> -1074 <= B <= 971 ->
  bra64 s M E l = S754_zero s
  \/ exists m e, bra64 s M E l = S754_finite s m e
                 /\ Zpos m <= 2 ^ (B - e) /\ e <= B.
Proof.
  intros [HM0 HMB] HEB HB.
  destruct (binary_round_aux_steps s M E l HM0)
    as (m1 & e1 & m1' & m2 & e2 & He1 & Hm1 & Hr & Hex & Hm1lt & Hemin & Hcase & Hres).
  rewrite Hres. clear Hres.
  pose proof (Zdigits2_le_of_lt M (B - E) ltac:(lia) ltac:(lia)) as Hd.
  pose proof (Zdigits2_nonneg M) as Hd0.
  rewrite fexp64_eq in He1.
  assert (He1B : e1 <= B) by lia.
  assert (He1E : E <= e1) by lia.
  assert (Hm1B : m1 < 2 ^ (B - e1)).
  { rewrite Hm1. apply Z.div_lt_upper_bound; [pow_pos|].
    rewrite <- Z.pow_add_r by lia.
    replace (e1 - E + (B - e1)) with (B - E) by lia. assumption. }
  assert (Hm10 : 0 <= m1).
  { rewrite Hm1. apply Z.div_pos; [lia | pow_pos]. }
  destruct Hcase as [(Heq & Hm2 & He2) | (Hlt & Hm2 & He2)].
  - right. subst m2 e2. exists (2 ^ 52)%positive, (e1 + 1).
    assert (H53 : 53 <= B - e1).
    { apply (Z.pow_le_mono_r_iff 2); lia. }
    split; [|split].
    + unfold sf_of_rounded. change (2 ^ 52) with (Zpos (2 ^ 52)).
      cbv iota beta. replace (e1 + 1 <=? 971) with true; [reflexivity|].
      symmetry. apply Z.leb_le. lia.
    + change (Zpos (2 ^ 52)) with (2 ^ 52). apply Z.pow_le_mono_r; lia.
    + lia.
  - subst m2 e2. destruct m1' as [|p|p]; [left; reflexivity | right | lia].
    exists p, e1. split; [|split; [lia|assumption]].
    unfold sf_of_rounded. replace (e1 <=? 971) with true; [reflexivity|].
    symmetry. apply Z.leb_le. lia.
Qed.

(** Rounding is monotone against a representable value: what is at least
    [my * 2^ey], a canonical float, rounds to at least that float. *)
Lemma binary_round_aux_lower (s : bool) (M E : Z) (l : location)
      (my : positive) (ey : Z) :
  E <= ey -> Zpos my * 2 ^ (ey - E) <= M ->
  fexp64 (Zpos (digits2_pos my) + ey) = ey ->
  bra64 s M E l = S754_infinity s
  \/ exists m e, bra64 s M E l = S754_finite s m e
                 /\ (ey < e \/ (e = ey /\ Zpos my <= Zpos m)).
Proof.
  intros HE HM Hcan.
  assert (Hpow : 0 < 2 ^ (ey - E)) by pow_pos.
  assert (HM0 : 0 < M) by nia.
  destruct (binary_round_aux_steps s M E l ltac:(lia))
    as (m1 & e1 & m1' & m2 & e2 & He1 & Hm1 & Hr & Hex & Hm1lt & Hemin & Hcase & Hres).
  rewrite Hres. clear Hres.
  pose proof (digits2_pos_bounds my) as [Hdy _].
  set (dy := Zpos (digits2_pos my)) in *.
  assert (Hd : dy + (ey - E) <= Zdigits2 M).
  { replace (dy + (ey - E)) with ((dy - 1 + (ey - E)) + 1) by lia.
    apply Zdigits2_ge_of_le; [lia|].
    rewrite Z.pow_add_r by lia.
    apply Z.le_trans with (2 := HM). apply Z.mul_le_mono_nonneg_r; lia. }
  rewrite fexp64_eq in He1, Hcan.
  assert (He1y : ey <= e1) by lia.
  assert (Hm2pos : 0 < m2 /\ (ey < e2 \/ (e2 = ey /\ Zpos my <= m2))).
  { assert (Hlow : (e1 = ey /\ Zpos my <= m1) \/ (ey < e1 /\ 2 ^ 52 <= m1)).
    { destruct (Z.eq_dec e1 ey) as [Heq|Hne].
      - left. split; [assumption|]. rewrite Hm1, Heq.
        apply Z.div_le_lower_bound; lia.
      - right. split; [lia|].
        assert (He1d : e1 - E = Zdigits2 M - 53) by lia.
        rewrite Hm1, He1d.
        apply Z.div_le_lower_bound; [pow_pos|].
        rewrite <- Z.pow_add_r by lia.
        replace (Zdigits2 M - 53 + 52) with (Zdigits2 M - 1) by lia.
        apply Zdigits2_bounds. assumption. }
    destruct Hcase as [(Heq & Hm2 & He2) | (Hlt & Hm2 & He2)]; subst m2 e2.
    - split; [lia|]. left. lia.
    - destruct Hlow as [[H1 H2]|[H1 H2]]; split; lia. }
  destruct Hm2pos as [Hpos Hord].
  destruct m2 as [|p|p]; try lia.
  unfold sf_of_rounded. destruct (e2 <=? 971); [right | left; reflexivity].
  exists p, e2. split; [reflexivity | assumption].
Qed.

(** A representable value is returned as it is. *)
Lemma binary_round_aux_exact (s : bool) (m : positive) (e : Z) :
  fexp64 (Zpos (digits2_pos m) + e) = e -> e <= 971 ->
  bra64 s (Zpos m) e loc_Exact = S754_finite s m e.
Proof.
  intros Hcan He.
  destruct (binary_round_aux_steps s (Zpos m) e loc_Exact ltac:(lia))
    as (m1 & e1 & m1' & m2 & e2 & He1 & Hm1 & Hr & Hex & Hm1lt & Hemin & Hcase & Hres).
  rewrite Hres. clear Hres.
  change (Zdigits2 (Zpos m)) with (Zpos (digits2_pos m)) in He1.
  rewrite Hcan in He1.
  assert (He1e : e1 = e) by lia.
  specialize (Hex He1e). cbn [round_nearest_even] in Hex.
  pose proof (digits2_pos_bounds m) as [Hlo _].
  rewrite fexp64_eq in Hcan.
  assert (Hlt : Zpos m < 2 ^ 53).
  { destruct (digits2_pos_bounds m) as [_ Hhi].
    apply Z.lt_le_trans with (1 := Hhi). apply Z.pow_le_mono_r; lia. }
  destruct Hcase as [(Heq & _) | (_ & Hm2 & He2)]; [lia|].
  subst m2 e2. rewrite Hex, He1e. unfold sf_of_rounded.
  replace (e <=? 971) with true; [reflexivity|].
  symmetry. apply Z.leb_le. assumption.
Qed.

Lemma Pos_iter_xO (d m : positive) :
  Zpos (Pos.iter xO m d) = Zpos m * 2 ^ Zpos d.
Proof.
  revert m. induction d as [|d IH] using Pos.peano_ind; intros m.
  - cbn [Pos.iter]. rewrite Pos2Z.inj_xO. lia.
  - rewrite Pos.iter_succ, Pos2Z.inj_xO, IH, Pos2Z.inj_succ, Z.pow_succ_r by lia.
    lia.
Qed.

Lemma shl_align_spec (mx : positive) (ex ex' : Z) :
  snd (shl_align mx ex ex') = Z.min ex ex'
  /\ Zpos (fst (shl_align mx ex ex')) = Zpos mx * 2 ^ (ex - Z.min ex ex').
Proof.
  unfold shl_align. destruct (ex' - ex) as [|d|d] eqn:Hd; cbn [fst snd].
  - replace (Z.min ex ex') with ex by lia. rewrite Z.sub_diag. lia.
  - replace (Z.min ex ex') with ex by lia. rewrite Z.sub_diag. lia.
  - replace (Z.min ex ex') with ex' by lia.
    rewrite Pos_iter_xO. split; [reflexivity|]. f_equal. f_equal. lia.
Qed.

(** What validity of a binary64 value says of its mantissa and exponent. *)
Lemma Prim2SF_finite_canonical (x : float) (s : bool) (m : positive) (e : Z) :
  Prim2SF x = S754_finite s m e ->
  fexp64 (Zpos (digits2_pos m) + e) = e /\ e <= 971.
Proof.
  intros H. pose proof (Prim2SF_valid x) as Hv. rewrite H in Hv.
  cbn [valid_binary] in Hv. unfold bounded, canonical_mantissa in Hv.
  apply andb_prop in Hv. destruct Hv as [H1 H2].
  apply Z.eqb_eq in H1. apply Z.leb_le in H2.
  split; [exact H1 | exact H2].
Qed.

Lemma canonical_bounds (m : positive) (e : Z) :
  fexp64 (Zpos (digits2_pos m) + e) = e ->
  Zpos m < 2 ^ 53 /\ -1074 <= e /\ (-1074 < e -> 2 ^ 52 <= Zpos m).
Proof.
  rewrite fexp64_eq. intros H.
  destruct (digits2_pos_bounds m) as [Hlo Hhi].
  split; [|split].
  - apply Z.lt_le_trans with (1 := Hhi). apply Z.pow_le_mono_r; lia.
  - lia.
  - intros He. apply Z.le_trans with (2 := Hlo). apply Z.pow_le_mono_r; lia.
Qed.

(** ** Order, sums and quotients of non-negative doubles *)

Lemma SFeqb_refl_finite (s : bool) (m : positive) (e : Z) :
  SFeqb (S754_finite s m e) (S754_finite s m e) = true.
Proof.
  unfold SFeqb, SFcompare. rewrite Z.compare_refl.
  change (Pos.compare_cont Eq m m) with (Pos.compare m m).
  rewrite Pos.compare_refl. destruct s; reflexivity.
Qed.

Lemma SFleb_finite_pos (m1 m2 : positive) (e1 e2 : Z) :
  SFleb (S754_finite false m1 e1) (S754_finite false m2 e2) = true
  <-> e1 < e2 \/ (e1 = e2 /\ Zpos m1 <= Zpos m2).
Proof.
  unfold SFleb, SFcompare.
  change (Pos.compare_cont Eq m1 m2) with (Pos.compare m1 m2).
  destruct (Z.compare_spec e1 e2) as [He|He|He].
  - destruct (Pos.compare_spec m1 m2) as [Hm|Hm|Hm]; split; intros H;
      try reflexivity; try discriminate; try lia.
  - split; intros H; [lia | reflexivity].
  - split; intros H; [discriminate | lia].
Qed.

Lemma nonneg_finite_nonneg (x : spec_float) : nonneg_finite x -> nonneg x.
Proof. destruct x as [s|s| |[] m e]; simpl; tauto. Qed.

Lemma sf_le_zero_nonneg (x : spec_float) :
  nonneg x -> sf_le (S754_zero false) x.
Proof. destruct x as [s|[]| |[] m e]; simpl; try tauto; reflexivity. Qed.

Lemma sf_le_refl_nonneg (x : spec_float) : nonneg x -> sf_le x x.
Proof.
  destruct x as [s|[]| |[] m e]; simpl; try tauto; intros _; try reflexivity.
  apply SFleb_finite_pos. lia.
Qed.

Lemma sf_le_trans (x y z : spec_float) :
  nonneg x -> nonneg y -> nonneg z -> sf_le x y -> sf_le y z -> sf_le x z.
Proof.
  unfold sf_le.
  destruct x as [sx|[]| |[] mx ex]; simpl; try tauto;
    destruct y as [sy|[]| |[] my ey]; simpl; try tauto;
    destruct z as [sz|[]| |[] mz ez]; simpl; try tauto;
    intros _ _ _ H1 H2; try reflexivity; try discriminate.
  rewrite SFleb_finite_pos in *. lia.
Qed.

Lemma nonneg_compare_zero (x : spec_float) :
  nonneg x ->
  SFleb (S754_zero false) x = true
  /\ SFleb x (S754_zero false) = SFeqb x (S754_zero false)
  /\ (SFleb x (S754_zero false) = false ->
      SFltb (S754_zero false) x = true /\ SFeqb x (S754_zero false) = false).
Proof.
  destruct x as [s|[]| |[] m e]; simpl; try tauto; intros _;
    repeat split; try reflexivity; try discriminate.
Qed.

Lemma SFltb_asym (x y : spec_float) : SFltb x y = true -> SFltb y x = false.
Proof.
  unfold SFltb, SFcompare.
  destruct x as [sx|sx| |sx mx ex], y as [sy|sy| |sy my ey];
    try destruct sx; try destruct sy; try discriminate; try reflexivity.
  all: change (Pos.compare_cont Eq my mx) with (Pos.compare my mx);
    change (Pos.compare_cont Eq mx my) with (Pos.compare mx my);
    rewrite (Z.compare_antisym ex ey), (Pos.compare_antisym mx my);
    destruct (ex ?= ey), (mx ?= my)%positive; simpl; congruence.
Qed.

(** Adding a non-negative finite double to a non-negative one gives a
    non-negative double that is below neither. *)
Lemma binary_round_lower (s : bool) (M : positive) (E : Z)
      (my : positive) (ey : Z) :
  E <= ey -> Zpos my * 2 ^ (ey - E) <= Zpos M ->
  fexp64 (Zpos (digits2_pos my) + ey) = ey ->
  binary_round prec emax s M E = S754_infinity s
  \/ exists m e, binary_round prec emax s M E = S754_finite s m e
                 /\ (ey < e \/ (e = ey /\ Zpos my <= Zpos m)).
Proof.
  intros HE HM Hcan. unfold binary_round.
  pose proof (shl_align_spec M E (fexp64 (Zpos (digits2_pos M) + E))) as [He Hm].
  destruct (shl_align M E (fexp64 (Zpos (digits2_pos M) + E))) as [mz ez].
  cbn [fst snd] in He, Hm. rewrite <- He in Hm.
  apply binary_round_aux_lower; [lia | | exact Hcan].
  rewrite Hm. replace (ey - ez) with ((ey - E) + (E - ez)) by lia.
  rewrite Z.pow_add_r by lia. rewrite Z.mul_assoc.
  apply Z.mul_le_mono_nonneg_r; [apply Z.pow_nonneg; lia | exact HM].
Qed.

Lemma SFadd_finite_pos (ma mx : positive) (ea ex : Z) :
  fexp64 (Zpos (digits2_pos ma) + ea) = ea ->
  fexp64 (Zpos (digits2_pos mx) + ex) = ex ->
  let r := SF64add (S754_finite false ma ea) (S754_finite false mx ex) in
  nonneg r /\ sf_le (S754_finite false ma ea) r /\ sf_le (S754_finite false mx ex) r.
Proof.
  intros Hca Hcx r. unfold r, SF64add, SFadd. cbn [cond_Zopp].
  set (ez := Z.min ea ex).
  pose proof (shl_align_spec ma ea ez) as [_ Ha].
  pose proof (shl_align_spec mx ex ez) as [_ Hx].
  replace (Z.min ea ez) with ez in Ha by lia.
  replace (Z.min ex ez) with ez in Hx by lia.
  set (a' := fst (shl_align ma ea ez)) in *.
  set (x' := fst (shl_align mx ex ez)) in *.
  change (Zpos a' + Zpos x') with (Zpos (a' + x')).
  cbn [binary_normalize].
  assert (0 < 2 ^ (ea - ez)) by pow_pos.
  assert (0 < 2 ^ (ex - ez)) by pow_pos.
  destruct (binary_round_lower false (a' + x') ez ma ea ltac:(lia)
              ltac:(rewrite Pos2Z.inj_add; lia) Hca)
    as [Hinf | (m & e & Hf & Hord)].
  - rewrite Hinf. repeat split.
  - destruct (binary_round_lower false (a' + x') ez mx ex ltac:(lia)
                ltac:(rewrite Pos2Z.inj_add; lia) Hcx)
      as [Hinf' | (m' & e' & Hf' & Hord')].
    + rewrite Hinf'. repeat split.
    + rewrite Hf in Hf'. injection Hf' as <- <-. rewrite Hf.
      split; [exact I|].
      split; apply SFleb_finite_pos; lia.
Qed.

(** The quotient of two positive doubles, the first strictly below the
    second, rounds to at most 1. *)
Lemma SFdiv_below_one (mx ms : positive) (ex es : Z) :
  fexp64 (Zpos (digits2_pos mx) + ex) = ex ->
  fexp64 (Zpos (digits2_pos ms) + es) = es ->
  ex < es \/ (ex = es /\ Zpos mx < Zpos ms) ->
  let q := SF64div (S754_finite false mx ex) (S754_finite false ms es) in
  q = S754_zero false
  \/ exists m e, q = S754_finite false m e /\ Zpos m <= 2 ^ (0 - e) /\ e <= 0.
Proof.
  intros Hcx Hcs Hlt q. unfold q, SF64div, SFdiv, SFdiv_core_binary.
  cbn [xorb]. change (Zdigits2 (Zpos mx)) with (Zpos (digits2_pos mx)).
  change (Zdigits2 (Zpos ms)) with (Zpos (digits2_pos ms)).
  pose proof (canonical_bounds _ _ Hcx) as (Hx53 & Hexmin & _).
  pose proof (canonical_bounds _ _ Hcs) as (Hs53 & Hesmin & Hs52).
  set (d1 := Zpos (digits2_pos mx)) in *. set (d2 := Zpos (digits2_pos ms)) in *.
  assert (Hd1 : 1 <= d1 <= 53) by (rewrite fexp64_eq in Hcx; unfold d1 in *; lia).
  assert (Hd2 : 1 <= d2 <= 53) by (rewrite fexp64_eq in Hcs; unfold d2 in *; lia).
  set (e' := Z.min (fexp64 (d1 + ex - (d2 + es))) (ex - es)).
  assert (He' : e' <= ex - es /\ e' <= 0 /\ -1074 <= 0).
  { unfold e'. rewrite fexp64_eq. lia. }
  set (sh := ex - es - e').
  assert (Hsh : 0 <= sh) by (unfold sh; lia).
  set (m' := match sh with
             | 0 => Zpos mx
             | Zpos _ => Z.shiftl (Zpos mx) sh
             | Zneg _ => 0
             end).
  assert (Hm' : m' = Zpos mx * 2 ^ sh).
  { unfold m'. destruct sh as [|p|p] eqn:Hp; [lia | | lia].
    apply Z.shiftl_mul_pow2. lia. }
  destruct (Z.div_eucl m' (Zpos ms)) as [qz r] eqn:Hdiv.
  assert (Hq : qz = m' / Zpos ms) by (unfold Z.div; rewrite Hdiv; reflexivity).
  assert (Hp1 : 0 < 2 ^ sh) by pow_pos.
  assert (Hp2 : 0 < 2 ^ (0 - e')) by pow_pos.
  apply binary_round_aux_upper; [|lia|lia].
  rewrite Hq. split; [apply Z.div_pos; lia|].
  apply Z.div_lt_upper_bound; [lia|]. rewrite Hm'.
  destruct Hlt as [Hlt | [Heq Hmlt]].
  - specialize (Hs52 ltac:(lia)).
    assert (Hle : 2 ^ sh * 2 <= 2 ^ (0 - e')).
    { rewrite Z.mul_comm, <- Z.pow_succ_r by lia.
      apply Z.pow_le_mono_r; unfold sh; lia. }
    nia.
  - replace sh with (0 - e') by (unfold sh; lia). nia.
Qed.

(** A positive double divided by itself is 1. *)
Lemma SFdiv_self (m : positive) (e : Z) :
  SF64div (S754_finite false m e) (S754_finite false m e)
  = S754_finite false 4503599627370496 (-52).
Proof.
  unfold SF64div, SFdiv, SFdiv_core_binary. cbn [xorb].
  replace (Zdigits2 (Zpos m) + e - (Zdigits2 (Zpos m) + e)) with 0 by lia.
  rewrite Z.sub_diag.
  change (Z.min (fexp64 0) 0) with (-53). change (0 - -53) with 53.
  cbv iota.
  destruct (Z.div_eucl (Z.shiftl (Zpos m) 53) (Zpos m)) as [q r] eqn:Hdiv.
  assert (Hq : q = Z.shiftl (Zpos m) 53 / Zpos m)
    by (unfold Z.div; rewrite Hdiv; reflexivity).
  assert (Hr : r = Z.shiftl (Zpos m) 53 mod Zpos m)
    by (unfold Z.modulo; rewrite Hdiv; reflexivity).
  rewrite Z.shiftl_mul_pow2 in Hq, Hr by lia.
  rewrite Z.mul_comm, Z.div_mul in Hq by lia.
  rewrite Z.mul_comm, Z.mod_mul in Hr by lia.
  subst q r.
  assert (Hloc : new_location (Zpos m) 0 = loc_Exact).
  { unfold new_location. destruct (Z.even (Zpos m)); reflexivity. }
  rewrite Hloc. reflexivity.
Qed.

End Binary64.

Import Binary64.

(** * Properties of the embedding *)

(** ** Vectors and the finite filter *)

Lemma empty_true_iff (v : list float) : empty v = true <-> v = [].
Proof. destruct v; simpl; split; congruence. Qed.

Lemma empty_false_iff (v : list float) : empty v = false <-> v <> [].
Proof. destruct v; simpl; split; congruence. Qed.

Lemma filter_finite_spec (v : list float) :
  filter_finite v = filter isfinite v.
Proof.
  unfold filter_finite, remove_if. apply filter_ext.
  intros x. apply negb_involutive.
Qed.

Lemma filter_finite_idem (v : list float) :
  filter_finite (filter_finite v) = filter_finite v.
Proof.
  rewrite !filter_finite_spec. induction v as [|x v IH]; simpl; [reflexivity|].
  destruct (isfinite x) eqn:E; simpl; rewrite ?E, IH; reflexivity.
Qed.

Lemma filter_finite_all (v : list float) :
  Forall (fun x => isfinite x = true) (filter_finite v).
Proof.
  rewrite filter_finite_spec. apply Forall_forall. intros x Hx.
  apply filter_In in Hx. tauto.
Qed.

Lemma filter_finite_id (v : list float) :
  Forall (fun x => isfinite x = true) v -> filter_finite v = v.
Proof.
  rewrite filter_finite_spec. induction 1 as [|x v Hx _ IH]; simpl; [reflexivity|].
  rewrite Hx, IH. reflexivity.
Qed.

(** ** Sorting: the embedding of [std::sort] permutes and sorts *)

Lemma sort_insert_length (x : float) (v : list float) :
  List.length (sort_insert x v) = S (List.length v).
Proof.
  induction v as [|y v IH]; simpl; [reflexivity|].
  destruct (PrimFloat.ltb x y); simpl; rewrite ?IH; reflexivity.
Qed.

Lemma sort_length (v : list float) : List.length (sort v) = List.length v.
Proof.
  induction v as [|x v IH]; [reflexivity|].
  change (sort (x :: v)) with (sort_insert x (sort v)).
  rewrite sort_insert_length, IH. reflexivity.
Qed.

Lemma sort_unless_length (b : bool) (v : list float) :
  List.length (sort_unless b v) = List.length v.
Proof. destruct b; simpl; [reflexivity | apply sort_length]. Qed.

Lemma size_sort_unless (b : bool) (v : list float) :
  size (sort_unless b v) = size v.
Proof. unfold size. rewrite sort_unless_length. reflexivity. Qed.

Lemma size_zero_iff (v : list float) : size v = 0 <-> v = [].
Proof.
  unfold size. destruct v; simpl; split; try congruence; lia.
Qed.

Lemma sort_unless_nil_iff (b : bool) (v : list float) :
  sort_unless b v = [] <-> v = [].
Proof. rewrite <- !size_zero_iff, size_sort_unless. reflexivity. Qed.

Lemma ltb_asym (x y : float) :
  PrimFloat.ltb x y = true -> PrimFloat.ltb y x = false.
Proof. rewrite !ltb_spec. apply SFltb_asym. Qed.

Lemma sort_insert_perm (x : float) (v : list float) :
  Permutation (x :: v) (sort_insert x v).
Proof.
  induction v as [|y v IH]; simpl; [reflexivity|].
  destruct (PrimFloat.ltb x y); [reflexivity|].
  rewrite perm_swap. constructor. exact IH.
Qed.

Lemma sort_perm (v : list float) : Permutation v (sort v).
Proof.
  induction v as [|x v IH]; [reflexivity|].
  change (sort (x :: v)) with (sort_insert x (sort v)).
  rewrite <- sort_insert_perm. constructor. exact IH.
Qed.

Lemma sort_insert_sorted (x : float) (v : list float) :
  Sorted (fun a b => PrimFloat.ltb b a = false) v ->
  Sorted (fun a b => PrimFloat.ltb b a = false) (sort_insert x v).
Proof.
  induction 1 as [|y v Hs IH Hhd]; simpl.
  - repeat constructor.
  - destruct (PrimFloat.ltb x y) eqn:Hxy.
    + constructor; [constructor; assumption|].
      constructor. apply ltb_asym. exact Hxy.
    + constructor; [exact IH|].
      destruct Hhd as [|z v' Hyz]; simpl.
      * constructor. exact Hxy.
      * destruct (PrimFloat.ltb x z); constructor; assumption.
Qed.

(** No element of [sort v] is greater than its successor. *)
Lemma sort_sorted (v : list float) :
  Sorted (fun a b => PrimFloat.ltb b a = false) (sort v).
Proof.
  induction v as [|x v IH]; [constructor|].
  change (sort (x :: v)) with (sort_insert x (sort v)).
  apply sort_insert_sorted. exact IH.
Qed.

(** ** The two loops *)

Lemma skipn_nth_error_cons (v : list float) :
  forall (n : nat) (x : float),
    nth_error v n = Some x -> skipn n v = x :: skipn (S n) v.
Proof.
  induction v as [|y v IH]; intros [|n] x H; try discriminate.
  - injection H as ->. reflexivity.
  - simpl in H. apply IH in H. exact H.
Qed.

(** The summation loop of [trimmed_mean] stays in bounds when the range does,
    adds the slice in order and counts its rounds. *)
Lemma sum_loop_slice (v : list float) (iters : nat) :
  forall (i : Z) (s : float) (cnt : Z),
    0 <= i ->
    (Z.to_nat i + iters <= List.length v)%nat ->
    sum_loop v iters i s cnt
    = Some (accumulate (firstn iters (skipn (Z.to_nat i) v)) s, cnt + Z.of_nat iters).
Proof.
  induction iters as [|iters IH]; intros i s cnt Hi Hlen.
  - simpl. rewrite Z.add_0_r. reflexivity.
  - cbn [sum_loop].
    destruct (nth_error v (Z.to_nat i)) as [x|] eqn:Hx.
    + rewrite IH by lia.
      rewrite (skipn_nth_error_cons v _ x Hx).
      replace (Z.to_nat (i + 1)) with (S (Z.to_nat i)) by lia.
      cbn [firstn accumulate fold_left]. f_equal. f_equal. lia.
    + apply nth_error_None in Hx. lia.
Qed.

(** The dot-product loop stays in bounds when both vectors are long enough. *)
Lemma dot_loop_total (v w : list float) (iters : nat) :
  forall (i : Z) (dot : float),
    0 <= i ->
    (Z.to_nat i + iters <= List.length v)%nat ->
    (Z.to_nat i + iters <= List.length w)%nat ->
    exists d, dot_loop v w iters i dot = Some d.
Proof.
  induction iters as [|iters IH]; intros i dot Hi Hv Hw.
  - eexists. reflexivity.
  - cbn [dot_loop].
    destruct (nth_error v (Z.to_nat i)) as [x|] eqn:Hx;
      [| apply nth_error_None in Hx; lia].
    destruct (nth_error w (Z.to_nat i)) as [y|] eqn:Hy;
      [| apply nth_error_None in Hy; lia].
    apply IH; lia.
Qed.

(** ** Weights *)

Lemma clip_weights_length (w : list float) :
  List.length (clip_weights w) = List.length w.
Proof. apply length_map. Qed.

Lemma normalize_weights_length (w : list float) (s : float) :
  List.length (normalize_weights w s) = List.length w.
Proof. apply length_map. Qed.

(** ** Doubles: classification, sizes and the trim count *)

Lemma isfinite_spec (x : float) :
  isfinite x = match Prim2SF x with
               | S754_zero _ | S754_finite _ _ _ => true
               | S754_infinity _ | S754_nan => false
               end.
Proof.
  unfold isfinite, is_finite, is_nan, is_infinity.
  rewrite !eqb_spec, abs_spec.
  destruct (Prim2SF x) as [s|s| |s m e] eqn:E.
  - reflexivity.
  - destruct s; reflexivity.
  - reflexivity.
  - rewrite SFeqb_refl_finite. reflexivity.
Qed.

(** Conversion of a size below [2^53] is exact. *)
Lemma size_to_double_exact (n : Z) :
  0 < n < 2 ^ 53 ->
  exists mn en,
    Prim2SF (size_to_double n) = S754_finite false mn en
    /\ Zpos mn = n * 2 ^ (- en) /\ -52 <= en <= 0.
Proof.
  intros Hn. unfold size_to_double.
  rewrite of_uint63_spec, Uint63.of_Z_spec.
  rewrite Z.mod_small by (change wB with (2 ^ 63); lia).
  destruct n as [|p|p]; try lia.
  cbn [binary_normalize]. unfold binary_round.
  set (d := Zpos (digits2_pos p)).
  destruct (digits2_pos_bounds p) as [Hlo Hhi]. fold d in Hlo, Hhi.
  assert (Hd : 1 <= d <= 53).
  { split; [unfold d; lia|].
    destruct (Z_le_gt_dec d 53); [assumption|].
    assert (2 ^ 53 <= 2 ^ (d - 1)) by (apply Z.pow_le_mono_r; lia). lia. }
  pose proof (shl_align_spec p 0 (fexp64 (d + 0))) as [He Hm].
  destruct (shl_align p 0 (fexp64 (d + 0))) as [mz ez].
  cbn [fst snd] in He, Hm. rewrite fexp64_eq in He, Hm.
  assert (Hez : ez = d - 53) by lia.
  replace (0 - Z.min 0 (Z.max (d + 0 - 53) (-1074))) with (53 - d) in Hm by lia.
  assert (Hmz : 2 ^ 52 <= Zpos mz < 2 ^ 53).
  { rewrite Hm. split.
    - replace 52 with ((d - 1) + (53 - d)) by lia. rewrite Z.pow_add_r by lia.
      apply Z.mul_le_mono_nonneg_r; [apply Z.pow_nonneg|]; lia.
    - replace 53 with (d + (53 - d)) at 2 by lia. rewrite Z.pow_add_r by lia.
      apply Z.mul_lt_mono_pos_r; [apply Z.pow_pos_nonneg|]; lia. }
  assert (Hdz : Zpos (digits2_pos mz) = 53).
  { pose proof (Zdigits2_le_of_lt (Zpos mz) 53 ltac:(lia) ltac:(lia)).
    pose proof (Zdigits2_ge_of_le (Zpos mz) 52 ltac:(lia) ltac:(lia)).
    change (Zdigits2 (Zpos mz)) with (Zpos (digits2_pos mz)) in *. lia. }
  exists mz, ez. split; [|split].
  - apply binary_round_aux_exact; [rewrite Hdz, fexp64_eq|]; lia.
  - rewrite Hm. f_equal. f_equal. lia.
  - lia.
Qed.

Lemma size_to_double_zero : Prim2SF (size_to_double 0) = S754_zero false.
Proof. reflexivity. Qed.

(** The normalised ratio is [+-0.0] or a positive double not above [0.5]. *)
Lemma clamp_ratio_cases (trim_ratio : float) :
  (exists s, Prim2SF (clamp_ratio trim_ratio) = S754_zero s)
  \/ (exists m e, Prim2SF (clamp_ratio trim_ratio) = S754_finite false m e
                  /\ e <= -53 /\ Zpos m < 2 ^ 53).
Proof.
  unfold clamp_ratio.
  set (r0 := if isfinite trim_ratio then trim_ratio else 0%float).
  assert (H0 : isfinite r0 = true).
  { unfold r0. destruct (isfinite trim_ratio) eqn:E; [exact E | reflexivity]. }
  set (r1 := if PrimFloat.ltb r0 0 then 0%float else r0).
  assert (H1 : (exists s, Prim2SF r1 = S754_zero s)
               \/ (exists m e, Prim2SF r1 = S754_finite false m e)).
  { unfold r1. rewrite ltb_spec. rewrite isfinite_spec in H0.
    destruct (Prim2SF r0) as [s|s| |s m e] eqn:E; try discriminate.
    - left. exists s. cbn. exact E.
    - destruct s; cbn.
      + left. exists false. reflexivity.
      + right. exists m, e. exact E. }
  rewrite ltb_spec.
  destruct H1 as [[s Hs]|(m & e & Hme)].
  - left. exists s. rewrite Hs. cbn. exact Hs.
  - rewrite Hme. change (Prim2SF 0.5) with (S754_finite false 4503599627370496 (-53)).
    unfold SFltb, SFcompare.
    destruct (Z.compare_spec (-53) e) as [He|He|He].
    + destruct (Pos.compare_spec 4503599627370496 m) as [Hm|Hm|Hm];
        change (Pos.compare_cont Eq 4503599627370496 m)
          with (Pos.compare 4503599627370496 m).
      * rewrite Hm, Pos.compare_refl. right. exists m, e.
        split; [exact Hme|]. split; [lia|].
        destruct (Prim2SF_finite_canonical _ _ _ _ Hme) as [Hc _].
        apply canonical_bounds in Hc. lia.
      * apply Pos.compare_lt_iff in Hm. rewrite Hm.
        right. exists 4503599627370496%positive, (-53). repeat split; lia.
      * apply Pos.compare_gt_iff in Hm. rewrite Hm. right. exists m, e.
        split; [exact Hme|]. split; [lia|].
        destruct (Prim2SF_finite_canonical _ _ _ _ Hme) as [Hc _].
        apply canonical_bounds in Hc. lia.
    + right. exists 4503599627370496%positive, (-53). repeat split; lia.
    + right. exists m, e. split; [exact Hme|]. split; [lia|].
      destruct (Prim2SF_finite_canonical _ _ _ _ Hme) as [Hc _].
      apply canonical_bounds in Hc. lia.
Qed.

Lemma llround_magnitude_bounds (m : positive) (e B : Z) :
  Zpos m <= 2 ^ (B - e) -> e <= B ->
  0 <= llround_magnitude m e <= 2 ^ Z.max B 0.
Proof.
  intros Hm HeB. unfold llround_magnitude.
  assert (Hmax : Zpos m <= 2 ^ (Z.max B 0 - e)).
  { apply Z.le_trans with (1 := Hm). apply Z.pow_le_mono_r; lia. }
  destruct (Z.leb_spec 0 e) as [He|He].
  - assert (0 < 2 ^ e) by pow_pos.
    split; [nia|].
    replace (Z.max B 0) with ((Z.max B 0 - e) + e) at 1 by lia.
    rewrite Z.pow_add_r by lia. nia.
  - assert (Hp : 0 < 2 ^ (- e)) by pow_pos.
    assert (Hh : 0 < 2 ^ (- e - 1)) by pow_pos.
    assert (Hhp : 2 ^ (- e) = 2 * 2 ^ (- e - 1)).
    { rewrite <- Z.pow_succ_r by lia. f_equal. lia. }
    split; [apply Z.div_pos; lia|].
    apply Z.lt_succ_r. apply Z.div_lt_upper_bound; [lia|].
    replace (Z.max B 0 - e) with (Z.max B 0 + - e) in Hmax by lia.
    rewrite Z.pow_add_r in Hmax by lia.
    assert (0 < 2 ^ Z.max B 0) by pow_pos.
    nia.
Qed.

(** Line 31 never leaves the range of [long long]: the trim count of a vector
    that fits in memory is defined, non-negative and small. *)
Lemma trim_count_in_range (trim_ratio : float) (n : Z) :
  0 < n < 2 ^ 53 ->
  exists k, trim_count (clamp_ratio trim_ratio) n = Some k /\ 0 <= k <= 2 ^ 53.
Proof.
  intros Hn. unfold trim_count, llround. rewrite mul_spec.
  destruct (size_to_double_exact n Hn) as (mn & en & Hnf & Hmn & Hen).
  rewrite Hnf.
  destruct (Prim2SF_finite_canonical _ _ _ _ Hnf) as [Hcn _].
  apply canonical_bounds in Hcn. destruct Hcn as (Hmn53 & _ & _).
  destruct (clamp_ratio_cases trim_ratio) as [[s Hs]|(m & e & Hme & He & Hm)].
  - rewrite Hs. cbn. exists 0. split; [reflexivity | lia].
  - rewrite Hme. unfold SF64mul, SFmul. cbn [xorb].
    set (B := Z.max (106 + (e + en)) (-1074)).
    assert (HM : 0 <= Zpos (m * mn) < 2 ^ (B - (e + en))).
    { split; [lia|]. rewrite Pos2Z.inj_mul.
      apply Z.lt_le_trans with (2 ^ 106).
      - change (2 ^ 106) with (2 ^ 53 * 2 ^ 53). nia.
      - apply Z.pow_le_mono_r; lia. }
    destruct (binary_round_aux_upper false (Zpos (m * mn)) (e + en) loc_Exact B
                HM ltac:(lia) ltac:(lia))
      as [Hz | (m2 & e2 & Hf & Hm2 & He2)].
    + rewrite Hz. exists 0. split; [reflexivity | lia].
    + rewrite Hf. cbn [cond_Zopp].
      pose proof (llround_magnitude_bounds m2 e2 B Hm2 He2) as [Hk0 Hk].
      assert (Hk53 : llround_magnitude m2 e2 <= 2 ^ 53).
      { apply Z.le_trans with (1 := Hk). apply Z.pow_le_mono_r; lia. }
      exists (llround_magnitude m2 e2).
      split; [|lia].
      replace ((LLONG_MIN <=? llround_magnitude m2 e2)
               && (llround_magnitude m2 e2 <=? LLONG_MAX)) with true;
        [reflexivity|].
      symmetry. apply andb_true_intro.
      split; apply Z.leb_le; unfold LLONG_MIN, LLONG_MAX; lia.
Qed.

Lemma llround_rounds_half_away (x : float) (k : Z) :
  llround x = Some k -> rounds_half_away (Prim2SF x) k.
Proof.
  unfold llround, rounds_half_away.
  destruct (Prim2SF x) as [s|s| |s m e]; try discriminate.
  - intros H. injection H as <-. reflexivity.
  - destruct (_ && _); [|discriminate]. intros H. injection H as <-.
    exists (llround_magnitude m e). split; [reflexivity|].
    unfold llround_magnitude. destruct (Z.leb_spec 0 e) as [He|He]; [reflexivity|].
    assert (Hh : 0 < 2 ^ (- e - 1)) by pow_pos.
    assert (Hhp : 2 ^ (- e) = 2 * 2 ^ (- e - 1)).
    { rewrite <- Z.pow_succ_r by lia. f_equal. lia. }
    pose proof (Z.div_mod (Zpos m + 2 ^ (- e - 1)) (2 ^ (- e)) ltac:(lia)) as Hdm.
    pose proof (Z.mod_pos_bound (Zpos m + 2 ^ (- e - 1)) (2 ^ (- e)) ltac:(lia)) as Hb.
    nia.
Qed.

Example rounds_half_away_ties :
  rounds_half_away (Prim2SF 2.5) 3
  /\ ~ rounds_half_away (Prim2SF 2.5) 2
  /\ rounds_half_away (Prim2SF (-2.5)) (-3)
  /\ llround 2.5 = Some 3 /\ llround (-2.5) = Some (-3)
  /\ llround 0x1.7ffffffffffffp0 = Some 1.
Proof.
  change (Prim2SF 2.5) with (S754_finite false 5629499534213120 (-51)).
  change (Prim2SF (-2.5)) with (S754_finite true 5629499534213120 (-51)).
  cbn [rounds_half_away cond_Zopp Z.leb Z.compare].
  change (2 ^ (- -51)) with 2251799813685248.
  repeat split.
  - exists 3. split; [reflexivity | lia].
  - intros (a & Ha & Hb). lia.
  - exists 3. split; [reflexivity | lia].
Qed.

(** ** The shape of [trimmed_mean] *)

Lemma wrap64_small (z : Z) : 0 <= z < 2 ^ 64 -> wrap64 z = z.
Proof. intros H. unfold wrap64. apply Z.mod_small. exact H. Qed.

Lemma size_filter_finite_le (v : list float) : size (filter_finite v) <= size v.
Proof.
  unfold size. rewrite filter_finite_spec.
  pose proof (filter_length_le isfinite v). lia.
Qed.

Lemma size_slice (v : list float) (lo hi : Z) :
  0 <= lo <= hi -> hi <= size v -> size (slice v lo hi) = hi - lo.
Proof.
  unfold size, slice. intros H1 H2.
  rewrite length_firstn, length_skipn. lia.
Qed.

(** Once the trim count is known to be a small non-negative number, the two
    branches of lines 32-40 are the plain mean and the average of the
    slice; the loop ends with [cnt = n - 2*k]. *)
Lemma trimmed_mean_branches
  (v : list float) (trim_ratio : float) (assume_sorted : bool) (k : Z) :
  let u := sort_unless assume_sorted (filter_finite v) in
  let n := size u in
  filter_finite v <> [] -> n < 2 ^ 64 ->
  trim_count (clamp_ratio trim_ratio) n = Some k -> 0 <= k < 2 ^ 63 ->
  wrap64 k = k /\ wrap64 (2 * k) = 2 * k
  /\ (n <= 2 * k -> trimmed_mean v trim_ratio assume_sorted = Ret (mean u))
  /\ (2 * k < n ->
        wrap64 (n - k) = n - k
        /\ sum_loop u (Z.to_nat (n - k - k)) k 0 0
           = Some (accumulate (slice u k (n - k)) 0, n - 2 * k)
        /\ trimmed_mean v trim_ratio assume_sorted
           = Ret (PrimFloat.div (accumulate (slice u k (n - k)) 0)
                                (size_to_double (n - 2 * k)))).
Proof.
  intros u n Hne Hn Hk Hk63.
  assert (Hw : wrap64 k = k) by (apply wrap64_small; lia).
  assert (Hw2 : wrap64 (2 * k) = 2 * k) by (apply wrap64_small; lia).
  assert (Hloop : 2 * k < n ->
            wrap64 (n - k) = n - k
            /\ sum_loop u (Z.to_nat (n - k - k)) k 0 0
               = Some (accumulate (slice u k (n - k)) 0, n - 2 * k)).
  { intros Hlt. split; [apply wrap64_small; lia|].
    rewrite sum_loop_slice.
    - unfold slice.
      replace (0 + Z.of_nat (Z.to_nat (n - k - k))) with (n - 2 * k) by lia.
      reflexivity.
    - lia.
    - unfold n, size in *. lia. }
  split; [exact Hw|]. split; [exact Hw2|].
  unfold trimmed_mean. apply empty_false_iff in Hne. rewrite Hne.
  fold u. fold n. rewrite Hk. cbv zeta. rewrite Hw, Hw2.
  split.
  - intros Hle. apply Z.leb_le in Hle. rewrite Hle. reflexivity.
  - intros Hlt. destruct (Hloop Hlt) as [Hwn Hsum].
    split; [exact Hwn|]. split; [exact Hsum|].
    replace (n <=? 2 * k) with false by (symmetry; apply Z.leb_gt; lia).
    rewrite Hwn, Hsum.
    replace (0 <? n - 2 * k) with true by (symmetry; apply Z.ltb_lt; lia).
    reflexivity.
Qed.

Lemma size_prepared (v : list float) (assume_sorted : bool) :
  filter_finite v <> [] -> size v < 2 ^ 53 ->
  0 < size (sort_unless assume_sorted (filter_finite v)) < 2 ^ 53.
Proof.
  intros Hne Hsz. rewrite size_sort_unless.
  pose proof (size_filter_finite_le v).
  assert (size (filter_finite v) <> 0) by (rewrite size_zero_iff; exact Hne).
  unfold size in *. lia.
Qed.

(** * The claims *)

(** ** C1, C2, C4, C5: what the kernels do with bad input *)

(** C1.  [sorted_weighted_mean] throws [std::invalid_argument] with the
    message "weights length must match values length" exactly when the
    filtered sample is not empty and the clipped weights and the filtered
    (possibly sorted) sample differ in length.  It throws nothing else, and
    in every other case it returns a double. *)
Theorem sorted_weighted_mean_throws_iff (v w : list float) (assume_sorted : bool) :
  let u := sort_unless assume_sorted (filter_finite v) in
  let mismatch :=
    filter_finite v <> [] /\ List.length (clip_weights w) <> List.length u in
  (forall e, sorted_weighted_mean v w assume_sorted = Throw e <->
             e = invalid_argument "weights length must match values length"
             /\ mismatch)
  /\ (~ mismatch -> exists x, sorted_weighted_mean v w assume_sorted = Ret x).
Proof.
  intros u mismatch. unfold sorted_weighted_mean. fold u.
  destruct (empty (filter_finite v)) eqn:He.
  - apply empty_true_iff in He. split.
    + intros e. split; [discriminate|]. intros [_ [Hne _]]. contradiction.
    + intros _. eexists. reflexivity.
  - apply empty_false_iff in He.
    destruct (size (clip_weights w) =? size u) eqn:Hsz; simpl negb; cbv iota.
    + apply Z.eqb_eq in Hsz. unfold size in Hsz. apply Nat2Z.inj in Hsz.
      assert (Hok : exists x,
                 (if PrimFloat.leb (accumulate (clip_weights w) 0) 0
                  then Ret (mean u)
                  else match dot_loop u (normalize_weights (clip_weights w)
                                           (accumulate (clip_weights w) 0))
                               (Z.to_nat (size u)) 0 0 with
                       | Some dot => Ret dot
                       | None => Undefined
                       end) = Ret x).
      { destruct (PrimFloat.leb _ _); [eexists; reflexivity|].
        destruct (dot_loop_total u
                    (normalize_weights (clip_weights w) (accumulate (clip_weights w) 0))
                    (Z.to_nat (size u)) 0 0) as [d Hd].
        - lia.
        - unfold size. lia.
        - rewrite normalize_weights_length. unfold size. lia.
        - rewrite Hd. eexists. reflexivity. }
      split.
      * intros e. destruct Hok as [x Hx]. rewrite Hx.
        split; [discriminate|]. intros [_ [_ Hne]]. contradiction.
      * intros _. exact Hok.
    + apply Z.eqb_neq in Hsz. unfold size in Hsz.
      assert (Hm : mismatch) by (split; [assumption | congruence]).
      split.
      * intros e. split.
        -- intros H. injection H as <-. split; [reflexivity | exact Hm].
        -- intros [-> _]. reflexivity.
      * intros Hn. contradiction.
Qed.

(** The kernel's filter, which classifies with [std::isfinite], removes
    exactly the values that the specification calls non-finite. *)
Lemma filter_finite_FiniteFilter (v : list float) :
  filter_finite v = FiniteFilter v.
Proof.
  unfold filter_finite, remove_if, FiniteFilter. apply filter_ext.
  intros x. rewrite negb_involutive, isfinite_spec. unfold non_finite.
  destruct (Prim2SF x); reflexivity.
Qed.

Lemma kernels_ignore_non_finite
  (v w : list float) (trim_ratio : float) (assume_sorted : bool) :
  trimmed_mean v trim_ratio assume_sorted
  = trimmed_mean (FiniteFilter v) trim_ratio assume_sorted
  /\ sorted_weighted_mean v w assume_sorted
     = sorted_weighted_mean (FiniteFilter v) w assume_sorted.
Proof.
  rewrite <- filter_finite_FiniteFilter.
  unfold trimmed_mean, sorted_weighted_mean.
  rewrite filter_finite_idem. split; reflexivity.
Qed.

Lemma FiniteFilter_shorter (v : list float) :
  Exists (fun x => non_finite x = true) v ->
  (List.length (FiniteFilter v) < List.length v)%nat.
Proof.
  assert (Hle : forall l, (List.length (FiniteFilter l) <= List.length l)%nat).
  { intros l. induction l as [|y l IH]; [apply le_n|].
    unfold FiniteFilter in *. cbn [filter].
    destruct (negb (non_finite y)); cbn [List.length]; lia. }
  intros H. induction H as [x l Hx|x l _ IH].
  - unfold FiniteFilter. cbn [filter]. rewrite Hx. cbn [negb List.length].
    pose proof (Hle l) as H. unfold FiniteFilter in H. lia.
  - unfold FiniteFilter in *. cbn [filter].
    destruct (negb (non_finite x)); cbn [List.length]; lia.
Qed.

(** C2.  Non-finite samples are ignored: on every sample sequence that holds
    at least one non-finite value (a NaN or an infinity of either sign),
    [trimmed_mean] and [sorted_weighted_mean] give the outcome they give on
    the sequence with those values removed, the other arguments being the
    same.  The sequence with the values removed is [FiniteFilter v], which
    follows the specification's notion of a finite value and not the
    kernel's filter; it is strictly shorter than [v]. *)
Theorem nonfinite_samples_ignored
  (v w : list float) (trim_ratio : float) (assume_sorted : bool) :
  Exists (fun x => non_finite x = true) v ->
  trimmed_mean v trim_ratio assume_sorted
  = trimmed_mean (FiniteFilter v) trim_ratio assume_sorted
  /\ sorted_weighted_mean v w assume_sorted
     = sorted_weighted_mean (FiniteFilter v) w assume_sorted
  /\ (List.length (FiniteFilter v) < List.length v)%nat.
Proof.
  intros H.
  destruct (kernels_ignore_non_finite v w trim_ratio assume_sorted) as [Ht Hs].
  split; [exact Ht|]. split; [exact Hs|].
  apply FiniteFilter_shorter. exact H.
Qed.

Lemma nonfinite_samples_ignored_witness :
  FiniteFilter [1; PrimFloat.nan; 3; PrimFloat.infinity; 2]%float = [1; 3; 2]%float
  /\ trimmed_mean [1; PrimFloat.nan; 3; PrimFloat.infinity; 2]%float 0.25 false
     = trimmed_mean [1; 3; 2]%float 0.25 false
  /\ sorted_weighted_mean [1; PrimFloat.nan; 3; PrimFloat.infinity; 2]%float
       [1; 2; 1]%float false
     = sorted_weighted_mean [1; 3; 2]%float [1; 2; 1]%float false.
Proof.
  split; [reflexivity|].
  destruct (nonfinite_samples_ignored
              [1; PrimFloat.nan; 3; PrimFloat.infinity; 2]%float
              [1; 2; 1]%float 0.25 false) as (Ht & Hs & _).
  - apply Exists_cons_tl. apply Exists_cons_hd. reflexivity.
  - split; [exact Ht | exact Hs].
Defined.

(** C5.  When nothing is left of the sample after the finite filter, both
    kernels return the NaN sentinel, whatever the trim ratio, the weights
    and [assume_sorted] are; neither throws. *)
Theorem no_finite_sample_gives_nan
  (v w : list float) (trim_ratio : float) (assume_sorted : bool) :
  filter_finite v = [] ->
  trimmed_mean v trim_ratio assume_sorted = Ret quiet_NaN
  /\ sorted_weighted_mean v w assume_sorted = Ret quiet_NaN
  /\ PrimFloat.is_nan quiet_NaN = true.
Proof.
  intros H. unfold trimmed_mean, sorted_weighted_mean. rewrite H.
  repeat split.
Qed.

Lemma no_finite_sample_gives_nan_witness :
  filter_finite [PrimFloat.nan; PrimFloat.infinity; PrimFloat.neg_infinity] = []
  /\ trimmed_mean [PrimFloat.nan; PrimFloat.infinity; PrimFloat.neg_infinity]
       0.5%float false = Ret quiet_NaN.
Proof.
  split; [reflexivity|].
  apply (no_finite_sample_gives_nan
           [PrimFloat.nan; PrimFloat.infinity; PrimFloat.neg_infinity]
           [1%float] 0.5%float false).
  reflexivity.
Defined.

(** C4.  Before the weights are used, each one that is non-finite or negative
    has become [0.0] and the others are unchanged: the outcome depends on the
    weights through their clipped values only.  And when the lengths agree
    and the sum of the clipped weights is [<= 0], the result is the plain
    mean of the filtered (possibly sorted) sample, not a weighted one. *)
Theorem weights_clipped_then_zero_sum_fallback
  (v w : list float) (assume_sorted : bool) :
  (forall i x, nth_error w i = Some x ->
     nth_error (clip_weights w) i
     = Some (if negb (isfinite x) || PrimFloat.ltb x 0 then 0%float else x))
  /\ (forall w', clip_weights w' = clip_weights w ->
        sorted_weighted_mean v w' assume_sorted
        = sorted_weighted_mean v w assume_sorted)
  /\ (let u := sort_unless assume_sorted (filter_finite v) in
      List.length w = List.length u ->
      PrimFloat.leb (accumulate (clip_weights w) 0) 0 = true ->
      sorted_weighted_mean v w assume_sorted = Ret (mean u)).
Proof.
  split; [|split].
  - intros i x H. unfold clip_weights. rewrite nth_error_map, H. reflexivity.
  - intros w' H. unfold sorted_weighted_mean. rewrite H. reflexivity.
  - intros u Hlen Hsum. unfold sorted_weighted_mean. fold u.
    destruct (empty (filter_finite v)) eqn:He.
    + apply empty_true_iff in He.
      assert (Hu : u = []) by (apply sort_unless_nil_iff; exact He).
      rewrite Hu. reflexivity.
    + replace (size (clip_weights w) =? size u) with true.
      * simpl. rewrite Hsum. reflexivity.
      * symmetry. apply Z.eqb_eq. unfold size.
        rewrite clip_weights_length, Hlen. reflexivity.
Qed.

Example zero_weights_fall_back_to_mean :
  sorted_weighted_mean [1; 2; 3]%float [0; 0; 0]%float true = Ret 2%float
  /\ sorted_weighted_mean [1; 2; 3]%float
       [PrimFloat.nan; (-1)%float; PrimFloat.infinity] true = Ret 2%float.
Proof. split; vm_compute; reflexivity. Qed.

(** ** C3, C9, C10: the trimming *)

(** C3.  On a sample with at least one finite value (and fewer than [2^53]
    elements, as every vector in a 64-bit address space), with [u] the
    filtered (and, unless [assume_sorted], sorted) sequence of length [n] and
    [r] the clamped ratio: the trim count [k] is the double product [r * n]
    rounded to the nearest integer, halfway cases away from zero; when
    [2*k >= n] the result is the plain mean of [u]; otherwise it is the sum
    of the elements at positions [[k, n-k)] divided by their number, which
    is at least 1. *)
Theorem trimmed_mean_algorithm
  (v : list float) (trim_ratio : float) (assume_sorted : bool) :
  let u := sort_unless assume_sorted (filter_finite v) in
  let n := size u in
  let x := PrimFloat.mul (clamp_ratio trim_ratio) (size_to_double n) in
  filter_finite v <> [] -> size v < 2 ^ 53 ->
  exists k,
    llround x = Some k /\ rounds_half_away (Prim2SF x) k /\ 0 <= k
    /\ (n <= 2 * k -> trimmed_mean v trim_ratio assume_sorted = Ret (mean u))
    /\ (2 * k < n ->
          1 <= size (slice u k (n - k))
          /\ trimmed_mean v trim_ratio assume_sorted
             = Ret (PrimFloat.div (accumulate (slice u k (n - k)) 0)
                                  (size_to_double (size (slice u k (n - k)))))).
Proof.
  intros u n x Hne Hsz.
  pose proof (size_prepared v assume_sorted Hne Hsz) as Hn. fold u n in Hn.
  destruct (trim_count_in_range trim_ratio n Hn) as (k & Hk & Hk0).
  destruct (trimmed_mean_branches v trim_ratio assume_sorted k Hne
              ltac:(fold u n; lia) Hk ltac:(lia))
    as (_ & _ & Hmean & Hloop).
  exists k. split; [exact Hk|].
  split; [apply llround_rounds_half_away; exact Hk|].
  split; [lia|]. split; [exact Hmean|].
  intros Hlt. destruct (Hloop Hlt) as (_ & _ & Htm).
  fold u n in Htm.
  rewrite size_slice by lia.
  split; [lia|].
  rewrite Htm. do 3 f_equal. lia.
Qed.

Lemma trimmed_mean_algorithm_witness :
  filter_finite [4; 1; PrimFloat.nan; 100; 3; 2]%float <> []
  /\ size [4; 1; PrimFloat.nan; 100; 3; 2]%float < 2 ^ 53
  /\ trimmed_mean [4; 1; PrimFloat.nan; 100; 3; 2]%float 0.25%float false
     = Ret 3%float.
Proof.
  assert (H1 : filter_finite [4; 1; PrimFloat.nan; 100; 3; 2]%float <> [])
    by (vm_compute; discriminate).
  assert (H2 : size [4; 1; PrimFloat.nan; 100; 3; 2]%float < 2 ^ 53)
    by reflexivity.
  split; [exact H1|]. split; [exact H2|].
  destruct (trimmed_mean_algorithm
              [4; 1; PrimFloat.nan; 100; 3; 2]%float 0.25%float false H1 H2)
    as (k & Hk & _ & _ & _ & Hloop).
  vm_compute in Hk. injection Hk as <-.
  destruct (Hloop ltac:(reflexivity)) as [_ Htm].
  rewrite Htm. vm_compute. reflexivity.
Defined.

(** The product in C3 is the product of doubles.  For the double nearest to
    [0.3], which is below [0.3], and [n = 5] the exact product is below
    [1.5], the double product is [1.5], and the trim count is 2. *)
Example trim_count_of_double_product :
  Prim2SF 0x1.3333333333333p-2 = S754_finite false 5404319552844595 (-54)
  /\ 5404319552844595 * 5 < 3 * 2 ^ 53
  /\ Prim2SF (0x1.3333333333333p-2 * size_to_double 5)
     = S754_finite false (3 * 2 ^ 51) (-52)
  /\ trim_count 0x1.3333333333333p-2 5 = Some 2.
Proof. repeat split; vm_compute; reflexivity. Qed.

(** C9.  Whenever the summation loop is reached, that is when [2*k < n], it
    ends with [cnt = n - 2*k >= 1]: the guard [cnt > 0 ? cnt : 1] yields
    [cnt], and the division is by the positive number of summed elements.
    (The sample has a finite value and fewer than [2^53] elements; [ll] is
    the [long long] that [llround] returned and [k] its conversion to
    [std::size_t].) *)
Theorem summation_count_positive
  (v : list float) (trim_ratio : float) (assume_sorted : bool) (ll : Z) :
  let u := sort_unless assume_sorted (filter_finite v) in
  let n := size u in
  let k := wrap64 ll in
  filter_finite v <> [] -> size v < 2 ^ 53 ->
  trim_count (clamp_ratio trim_ratio) n = Some ll ->
  wrap64 (2 * k) < n ->
  exists s cnt,
    sum_loop u (Z.to_nat (wrap64 (n - k) - k)) k 0 0 = Some (s, cnt)
    /\ cnt = n - 2 * k /\ 1 <= cnt
    /\ (if 0 <? cnt then cnt else 1) = cnt
    /\ trimmed_mean v trim_ratio assume_sorted
       = Ret (PrimFloat.div s (size_to_double cnt)).
Proof.
  intros u n k Hne Hsz Hll Hreach.
  pose proof (size_prepared v assume_sorted Hne Hsz) as Hn. fold u n in Hn.
  destruct (trim_count_in_range trim_ratio n Hn) as (k' & Hk' & Hk0).
  assert (k' = ll) by congruence. subst k'.
  destruct (trimmed_mean_branches v trim_ratio assume_sorted ll Hne
              ltac:(fold u n; lia) Hll ltac:(lia))
    as (Hw & Hw2 & _ & Hloop).
  fold u n in Hloop. unfold k in *. rewrite Hw in *. rewrite Hw2 in Hreach.
  destruct (Hloop Hreach) as (Hwn & Hsum & Htm).
  exists (accumulate (slice u ll (n - ll)) 0), (n - 2 * ll).
  rewrite Hwn. split; [exact Hsum|]. split; [reflexivity|]. split; [lia|].
  split; [|exact Htm].
  replace (0 <? n - 2 * ll) with true by (symmetry; apply Z.ltb_lt; lia).
  reflexivity.
Qed.

Lemma summation_count_positive_witness :
  exists s cnt,
    sum_loop (sort [4; 1; 100; 3; 2]%float) 3 1 0 0 = Some (s, cnt)
    /\ cnt = 3
    /\ trimmed_mean [4; 1; 100; 3; 2]%float 0.25%float false
       = Ret (PrimFloat.div s (size_to_double cnt)).
Proof.
  destruct (summation_count_positive [4; 1; 100; 3; 2]%float 0.25%float false 1)
    as (s & cnt & Hsum & Hcnt & _ & _ & Htm).
  - vm_compute; discriminate.
  - reflexivity.
  - vm_compute. reflexivity.
  - reflexivity.
  - exists s, cnt. split; [exact Hsum|]. split; [exact Hcnt | exact Htm].
Defined.

(** C10.  With [assume_sorted = true] the behaviour is defined whatever the
    order of the input (a vector of fewer than [2^53] elements): the call
    returns a double, it neither throws nor runs into behaviour that is not
    defined; on a sample with a finite value it returns
    the plain mean of the filtered sequence when [2*k >= n], and otherwise
    the average of the elements at positions [[k, n-k)] of the filtered
    sequence in the order given. *)
Theorem trimmed_mean_assume_sorted_total (v : list float) (trim_ratio : float) :
  size v < 2 ^ 53 ->
  (exists x, trimmed_mean v trim_ratio true = Ret x)
  /\ (let u := filter_finite v in
      let n := size u in
      u <> [] ->
      exists k,
        trim_count (clamp_ratio trim_ratio) n = Some k /\ 0 <= k
        /\ trimmed_mean v trim_ratio true
           = Ret (if n <=? 2 * k then mean u
                  else PrimFloat.div (accumulate (slice u k (n - k)) 0)
                                     (size_to_double (n - 2 * k)))).
Proof.
  intros Hsz.
  assert (Hmain : let u := filter_finite v in
      let n := size u in
      u <> [] ->
      exists k,
        trim_count (clamp_ratio trim_ratio) n = Some k /\ 0 <= k
        /\ trimmed_mean v trim_ratio true
           = Ret (if n <=? 2 * k then mean u
                  else PrimFloat.div (accumulate (slice u k (n - k)) 0)
                                     (size_to_double (n - 2 * k)))).
  { intros u n Hne.
    pose proof (size_prepared v true Hne Hsz) as Hn.
    change (sort_unless true (filter_finite v)) with u in Hn. fold n in Hn.
    destruct (trim_count_in_range trim_ratio n Hn) as (k & Hk & Hk0).
    destruct (trimmed_mean_branches v trim_ratio true k Hne
                ltac:(change (sort_unless true (filter_finite v)) with u;
                      fold n; lia) Hk ltac:(lia))
      as (_ & _ & Hmean & Hloop).
    change (sort_unless true (filter_finite v)) with u in Hmean, Hloop.
    fold n in Hmean, Hloop.
    exists k. split; [exact Hk|]. split; [lia|].
    destruct (Z.leb_spec n (2 * k)) as [Hle|Hlt].
    - apply Hmean. exact Hle.
    - apply Hloop. exact Hlt. }
  split; [|exact Hmain].
  destruct (filter_finite v) as [|y u'] eqn:Hf.
  - exists quiet_NaN. unfold trimmed_mean. rewrite Hf. reflexivity.
  - destruct (Hmain ltac:(discriminate)) as (k & _ & _ & Htm).
    eexists. exact Htm.
Qed.

Lemma trimmed_mean_assume_sorted_total_witness :
  size [100; 1; 50; 2; 3]%float < 2 ^ 53
  /\ exists x, trimmed_mean [100; 1; 50; 2; 3]%float 0.25%float true = Ret x.
Proof.
  assert (H : size [100; 1; 50; 2; 3]%float < 2 ^ 53) by reflexivity.
  split; [exact H|].
  apply (trimmed_mean_assume_sorted_total [100; 1; 50; 2; 3]%float 0.25%float H).
Defined.

Example trimmed_mean_unsorted_input :
  trimmed_mean [100; 1; 50; 2; 3]%float 0.25%float true
  = Ret (PrimFloat.div 53 3).
Proof. vm_compute. reflexivity. Qed.

(** ** C6, C7: the trim ratio *)

Lemma trimmed_mean_ratio_congr
  (v : list float) (r1 r2 : float) (assume_sorted : bool) :
  clamp_ratio r1 = clamp_ratio r2 ->
  trimmed_mean v r1 assume_sorted = trimmed_mean v r2 assume_sorted.
Proof. intros H. unfold trimmed_mean. rewrite H. reflexivity. Qed.

Lemma slice_all (v : list float) : slice v 0 (size v - 0) = v.
Proof.
  unfold slice, size. cbn [Z.to_nat skipn].
  replace (Z.to_nat (Z.of_nat (List.length v) - 0 - 0)) with (List.length v) by lia.
  apply firstn_all.
Qed.

Lemma mean_nonempty (v : list float) :
  v <> [] ->
  mean v = PrimFloat.div (accumulate v 0) (size_to_double (size v)).
Proof. intros H. unfold mean. apply empty_false_iff in H. rewrite H. reflexivity. Qed.

(** With the ratio clamped to [0.0] the trim count is 0 and the loop adds the
    whole sequence, as [mean] does. *)
Lemma trimmed_mean_clamped_zero
  (v : list float) (trim_ratio : float) (assume_sorted : bool) :
  size v < 2 ^ 53 ->
  clamp_ratio trim_ratio = 0%float ->
  trimmed_mean v trim_ratio assume_sorted
  = Ret (mean (sort_unless assume_sorted (filter_finite v))).
Proof.
  intros Hsz Hc.
  destruct (filter_finite v) as [|y u'] eqn:Hf.
  - unfold trimmed_mean. rewrite Hf.
    replace (sort_unless assume_sorted []) with (@nil float)
      by (symmetry; apply sort_unless_nil_iff; reflexivity).
    reflexivity.
  - assert (Hne : filter_finite v <> []) by (rewrite Hf; discriminate).
    rewrite <- Hf.
    set (u := sort_unless assume_sorted (filter_finite v)).
    pose proof (size_prepared v assume_sorted Hne Hsz) as Hn. fold u in Hn.
    assert (Hk : trim_count (clamp_ratio trim_ratio) (size u) = Some 0).
    { rewrite Hc. unfold trim_count, llround. rewrite mul_spec.
      destruct (size_to_double_exact (size u) Hn) as (mn & en & Hnf & _).
      rewrite Hnf. reflexivity. }
    destruct (trimmed_mean_branches v trim_ratio assume_sorted 0 Hne
                ltac:(fold u; lia) Hk ltac:(lia))
      as (_ & _ & _ & Hloop).
    fold u in Hloop. destruct (Hloop ltac:(lia)) as (_ & _ & Htm).
    rewrite Htm, slice_all, mean_nonempty.
    + do 3 f_equal. lia.
    + intros Hu. apply sort_unless_nil_iff in Hu. contradiction.
Qed.

(** With the ratio clamped to [0.5] the trim count is at least [n/2]: the
    fallback to the plain mean is taken. *)
Lemma trim_count_half (n : Z) :
  0 < n < 2 ^ 53 ->
  exists k, trim_count 0.5%float n = Some k /\ 0 <= k <= 2 ^ 53 /\ n <= 2 * k.
Proof.
  intros Hn.
  destruct (trim_count_in_range 0.5%float n Hn) as (k & Hk & Hk0).
  change (clamp_ratio 0.5) with 0.5%float in Hk.
  exists k. split; [exact Hk|]. split; [exact Hk0|].
  unfold trim_count, llround in Hk.
  destruct (size_to_double_exact n Hn) as (mn & en & Hnf & Hmn & Hen).
  destruct (Prim2SF_finite_canonical _ _ _ _ Hnf) as [Hcn _].
  pose proof (canonical_bounds _ _ Hcn) as (Hmn53 & _ & Hmn52).
  pose proof (mul_spec 0.5 (size_to_double n)) as Hmul.
  rewrite Hnf in Hmul.
  change (Prim2SF 0.5) with (S754_finite false 4503599627370496 (-53)) in Hmul.
  unfold SF64mul, SFmul in Hmul. cbn [xorb] in Hmul.
  assert (Hcy : fexp64 (Zpos (digits2_pos mn) + (en - 1)) = en - 1).
  { rewrite fexp64_eq in *. lia. }
  destruct (binary_round_aux_lower false (Zpos (4503599627370496 * mn)) (-53 + en)
              loc_Exact mn (en - 1) ltac:(lia)
              ltac:(rewrite Pos2Z.inj_mul;
                    replace (en - 1 - (-53 + en)) with 52 by lia;
                    change (2 ^ 52) with 4503599627370496; lia)
              Hcy)
    as [Hinf | (m2 & e2 & Hf & Hord)].
  - rewrite Hinf in Hmul. rewrite Hmul in Hk. discriminate.
  - rewrite Hf in Hmul. rewrite Hmul in Hk.
    destruct (Prim2SF_finite_canonical _ _ _ _ Hmul) as [Hc2 _].
    pose proof (canonical_bounds _ _ Hc2) as (Hm253 & _ & Hm252).
    cbn [cond_Zopp] in Hk.
    destruct (_ && _); [|discriminate]. injection Hk as <-.
    unfold llround_magnitude.
    destruct (Z.leb_spec 0 e2) as [He2|He2].
    + assert (1 <= 2 ^ e2) by (apply (Z.pow_le_mono_r 2 0 e2); lia).
      specialize (Hm252 ltac:(lia)). nia.
    + set (h := 2 ^ (- e2 - 1)).
      assert (Hh : 0 < h) by pow_pos.
      assert (Hhp : 2 ^ (- e2) = h * 2).
      { unfold h. rewrite Z.mul_comm, <- Z.pow_succ_r by lia. f_equal. lia. }
      assert (Hval : n * h <= Zpos m2).
      { destruct Hord as [Hgt | [Heq Hle]].
        - specialize (Hm252 ltac:(lia)).
          assert (Hhle : h <= 2 ^ (- en - 1)) by (apply Z.pow_le_mono_r; lia).
          assert (Hmn2 : Zpos mn = n * 2 ^ (- en - 1) * 2).
          { rewrite Hmn, <- Z.mul_assoc. f_equal.
            rewrite Z.mul_comm, <- Z.pow_succ_r by lia. f_equal. lia. }
          assert (0 < 2 ^ (- en - 1)) by pow_pos.
          nia.
        - apply Z.le_trans with (2 := Hle). rewrite Hmn. unfold h.
          replace (- e2 - 1) with (- en) by lia. lia. }
      rewrite Hhp.
      assert (Hdiv : (n + 1) / 2 <= (Zpos m2 + h) / (h * 2)).
      { rewrite <- (Z.div_mul_cancel_l (n + 1) 2 h) by lia.
        rewrite (Z.mul_comm h 2) at 1.
        replace (h * (n + 1)) with (n * h + h) by lia.
        rewrite (Z.mul_comm 2 h).
        apply Z.div_le_mono; lia. }
      pose proof (Z.div_mod (n + 1) 2 ltac:(lia)).
      pose proof (Z.mod_pos_bound (n + 1) 2 ltac:(lia)).
      lia.
Qed.

Lemma trimmed_mean_clamped_half
  (v : list float) (trim_ratio : float) (assume_sorted : bool) :
  size v < 2 ^ 53 ->
  clamp_ratio trim_ratio = 0.5%float ->
  trimmed_mean v trim_ratio assume_sorted
  = Ret (mean (sort_unless assume_sorted (filter_finite v))).
Proof.
  intros Hsz Hc.
  destruct (filter_finite v) as [|y u'] eqn:Hf.
  - unfold trimmed_mean. rewrite Hf.
    replace (sort_unless assume_sorted []) with (@nil float)
      by (symmetry; apply sort_unless_nil_iff; reflexivity).
    reflexivity.
  - assert (Hne : filter_finite v <> []) by (rewrite Hf; discriminate).
    rewrite <- Hf.
    set (u := sort_unless assume_sorted (filter_finite v)).
    pose proof (size_prepared v assume_sorted Hne Hsz) as Hn. fold u in Hn.
    destruct (trim_count_half (size u) Hn) as (k & Hk & Hk0 & Hge).
    rewrite <- Hc in Hk.
    destruct (trimmed_mean_branches v trim_ratio assume_sorted k Hne
                ltac:(fold u; lia) Hk ltac:(lia))
      as (_ & _ & Hmean & _).
    apply Hmean. exact Hge.
Qed.

Lemma clamp_ratio_nonfinite (r : float) :
  isfinite r = false -> clamp_ratio r = 0%float.
Proof. intros H. unfold clamp_ratio. rewrite H. reflexivity. Qed.

Lemma clamp_ratio_negative (r : float) :
  PrimFloat.ltb r 0 = true -> clamp_ratio r = 0%float.
Proof.
  intros H. unfold clamp_ratio.
  destruct (isfinite r); [rewrite H|]; reflexivity.
Qed.

Lemma clamp_ratio_above_half (r : float) :
  isfinite r = true -> PrimFloat.ltb 0.5 r = true -> clamp_ratio r = 0.5%float.
Proof.
  intros Hf Hr. unfold clamp_ratio. rewrite Hf.
  assert (Hneg : PrimFloat.ltb r 0 = false).
  { rewrite ltb_spec in *.
    change (Prim2SF 0.5) with (S754_finite false 4503599627370496 (-53)) in Hr.
    change (Prim2SF 0) with (S754_zero false).
    destruct (Prim2SF r) as [s|s| |s m e]; try discriminate.
    - destruct s; [discriminate | reflexivity].
    - destruct s; [discriminate | reflexivity]. }
  rewrite Hneg, Hr. reflexivity.
Qed.

(** C6, as the code has it.  With trim ratio [0.0] nothing is trimmed and the
    result is the mean of the finite elements accumulated in the order the
    kernel holds them: ascending when [assume_sorted] is false, the order of
    the input when it is true.  (For a vector of fewer than [2^53]
    elements.) *)
Theorem trimmed_mean_ratio_zero (v : list float) (assume_sorted : bool) :
  size v < 2 ^ 53 ->
  trimmed_mean v 0 assume_sorted
  = Ret (mean (sort_unless assume_sorted (filter_finite v)))
  /\ sort_unless false (filter_finite v) = sort (filter_finite v)
  /\ sort_unless true (filter_finite v) = filter_finite v.
Proof.
  intros Hsz. split; [|split; reflexivity].
  apply trimmed_mean_clamped_zero; [exact Hsz | reflexivity].
Qed.

Lemma trimmed_mean_ratio_zero_witness :
  size [1; 0x1p53; -0x1p53]%float < 2 ^ 53
  /\ trimmed_mean [1; 0x1p53; -0x1p53]%float 0 false
     = Ret (mean (sort (filter_finite [1; 0x1p53; -0x1p53]%float))).
Proof.
  assert (H : size [1; 0x1p53; -0x1p53]%float < 2 ^ 53) by reflexivity.
  split; [exact H|].
  apply (trimmed_mean_ratio_zero [1; 0x1p53; -0x1p53]%float false H).
Defined.

(** C6, as the specification words it, fails: addition of doubles is not
    associative.  On [[1; 2^53; -2^53]] the kernel adds in ascending order,
    [(-2^53 + 1) + 2^53 = 1], and returns [1/3], while the mean of the
    filtered sequence in its own order is [((1 + 2^53) - 2^53) / 3 = 0]. *)
Lemma trimmed_mean_ratio_zero_counterexample :
  trimmed_mean [1; 0x1p53; -0x1p53]%float 0 false
  <> Ret (mean (filter_finite [1; 0x1p53; -0x1p53]%float)).
Proof.
  intros H.
  apply (f_equal (fun o => match o with
                           | Ret x => PrimFloat.is_zero x
                           | _ => false
                           end)) in H.
  vm_compute in H. discriminate H.
Qed.

(** C7.  The trim ratio is normalised before use: a non-finite ratio becomes
    [0.0], a ratio below 0 becomes [0.0], a finite ratio above [0.5] becomes
    [0.5]; and, on a vector of fewer than [2^53] elements, for every ratio
    [r > 0.5] (the infinite one, which becomes [0.0], included: ratios [0.0]
    and [0.5] both give the plain mean of the sorted sequence) the result is
    the one for ratio [0.5]. *)
Theorem trim_ratio_clamped (v : list float) (r : float) :
  size v < 2 ^ 53 ->
  (isfinite r = false -> clamp_ratio r = 0%float)
  /\ (PrimFloat.ltb r 0 = true -> clamp_ratio r = 0%float)
  /\ (isfinite r = true -> PrimFloat.ltb 0.5 r = true -> clamp_ratio r = 0.5%float)
  /\ (PrimFloat.ltb 0.5 r = true ->
      trimmed_mean v r false = trimmed_mean v 0.5 false).
Proof.
  intros Hsz.
  split; [apply clamp_ratio_nonfinite|].
  split; [apply clamp_ratio_negative|].
  split; [apply clamp_ratio_above_half|].
  intros Hr. destruct (isfinite r) eqn:Hf.
  - apply trimmed_mean_ratio_congr.
    rewrite (clamp_ratio_above_half r Hf Hr). reflexivity.
  - rewrite (trimmed_mean_clamped_zero v r false Hsz (clamp_ratio_nonfinite r Hf)).
    rewrite (trimmed_mean_clamped_half v 0.5 false Hsz); reflexivity.
Qed.

Lemma trim_ratio_clamped_witness :
  size [4; 1; 100; 3; 2]%float < 2 ^ 53
  /\ trimmed_mean [4; 1; 100; 3; 2]%float 0.75 false
     = trimmed_mean [4; 1; 100; 3; 2]%float 0.5 false
  /\ trimmed_mean [4; 1; 100; 3; 2]%float PrimFloat.infinity false
     = trimmed_mean [4; 1; 100; 3; 2]%float 0.5 false.
Proof.
  assert (H : size [4; 1; 100; 3; 2]%float < 2 ^ 53) by reflexivity.
  split; [exact H|]. split.
  - apply (trim_ratio_clamped [4; 1; 100; 3; 2]%float 0.75 H). reflexivity.
  - apply (trim_ratio_clamped [4; 1; 100; 3; 2]%float PrimFloat.infinity H).
    reflexivity.
Defined.

(** ** Sums and quotients of clipped weights *)

Lemma add_nonneg (a x : float) :
  nonneg (Prim2SF a) -> nonneg_finite (Prim2SF x) ->
  nonneg (Prim2SF (a + x))
  /\ sf_le (Prim2SF a) (Prim2SF (a + x))
  /\ sf_le (Prim2SF x) (Prim2SF (a + x)).
Proof.
  rewrite add_spec. intros Ha Hx.
  destruct (Prim2SF a) as [sa|[]| |[] ma ea] eqn:Ea; simpl in Ha; try tauto;
    destruct (Prim2SF x) as [sx|sx| |[] mx ex] eqn:Ex; simpl in Hx; try tauto.
  - destruct sa, sx; repeat split.
  - repeat split. apply (sf_le_refl_nonneg (S754_finite false mx ex)). exact I.
  - repeat split.
  - repeat split.
  - repeat split. apply (sf_le_refl_nonneg (S754_finite false ma ea)). exact I.
  - destruct (Prim2SF_finite_canonical _ _ _ _ Ea) as [Hca _].
    destruct (Prim2SF_finite_canonical _ _ _ _ Ex) as [Hcx _].
    apply SFadd_finite_pos; assumption.
Qed.

(** A sum of non-negative finite doubles, accumulated from a non-negative
    start, is non-negative (possibly [+infinity]) and below neither the start
    nor any of its terms. *)
Lemma accumulate_nonneg (l : list float) :
  forall a : float,
    nonneg (Prim2SF a) ->
    Forall (fun x => nonneg_finite (Prim2SF x)) l ->
    nonneg (Prim2SF (accumulate l a))
    /\ sf_le (Prim2SF a) (Prim2SF (accumulate l a))
    /\ Forall (fun x => sf_le (Prim2SF x) (Prim2SF (accumulate l a))) l.
Proof.
  induction l as [|x l IH]; intros a Ha Hl.
  - simpl. split; [exact Ha|]. split; [apply sf_le_refl_nonneg; exact Ha | constructor].
  - inversion Hl as [|x' l' Hx Hl']; subst.
    destruct (add_nonneg a x Ha Hx) as (Hs & Has & Hxs).
    destruct (IH (a + x)%float Hs Hl') as (Hr & Hsr & Hall).
    change (accumulate (x :: l) a) with (accumulate l (a + x)%float).
    split; [exact Hr|]. split.
    + apply sf_le_trans with (Prim2SF (a + x)); auto.
    + constructor; [|exact Hall].
      apply sf_le_trans with (Prim2SF (a + x)); auto using nonneg_finite_nonneg.
Qed.

Lemma clip_weight_nonneg_finite (x : float) :
  nonneg_finite (Prim2SF (clip_weight x)).
Proof.
  unfold clip_weight. rewrite isfinite_spec, ltb_spec.
  change (Prim2SF 0) with (S754_zero false).
  destruct (Prim2SF x) as [s|s| |[] m e] eqn:E; cbn; rewrite ?E; exact I.
Qed.

Lemma clip_weights_nonneg_finite (w : list float) :
  Forall (fun x => nonneg_finite (Prim2SF x)) (clip_weights w).
Proof.
  unfold clip_weights. apply Forall_map. apply Forall_forall.
  intros x _. apply clip_weight_nonneg_finite.
Qed.

Lemma div_nonneg_le_one (x s : float) :
  nonneg_finite (Prim2SF x) -> nonneg (Prim2SF s) ->
  PrimFloat.leb s 0 = false ->
  sf_le (Prim2SF x) (Prim2SF s) ->
  nonneg_finite (Prim2SF (x / s)) /\ sf_le (Prim2SF (x / s)) (Prim2SF 1).
Proof.
  intros Hx Hs Hpos Hle. rewrite leb_spec in Hpos.
  change (Prim2SF 0) with (S754_zero false) in Hpos.
  change (Prim2SF 1) with (S754_finite false 4503599627370496 (-52)).
  pose proof (div_spec x s) as Hdiv.
  destruct (Prim2SF x) as [sx|sx| |[] mx ex] eqn:Ex; simpl in Hx; try tauto;
    destruct (Prim2SF s) as [ss|[]| |[] ms es] eqn:Es; simpl in Hs; try tauto;
    try discriminate Hpos.
  - rewrite Hdiv. split; [exact I | reflexivity].
  - rewrite Hdiv. split; [exact I | reflexivity].
  - rewrite Hdiv. split; [exact I | reflexivity].
  - destruct (Prim2SF_finite_canonical _ _ _ _ Ex) as [Hcx _].
    destruct (Prim2SF_finite_canonical _ _ _ _ Es) as [Hcs _].
    apply SFleb_finite_pos in Hle.
    assert (Hcase : (ex = es /\ mx = ms)
                    \/ (ex < es \/ (ex = es /\ Zpos mx < Zpos ms))).
    { destruct (Pos.eq_dec mx ms); [|lia]. destruct (Z.eq_dec ex es); lia. }
    destruct Hcase as [[-> ->] | Hlt].
    + rewrite SFdiv_self in Hdiv. rewrite Hdiv. split; [exact I|].
      apply SFleb_finite_pos. lia.
    + destruct (SFdiv_below_one mx ms ex es Hcx Hcs Hlt)
        as [Hz | (m & e & Hf & Hm & He)].
      * rewrite Hz in Hdiv. rewrite Hdiv. split; [exact I | reflexivity].
      * rewrite Hf in Hdiv.
        destruct (Prim2SF_finite_canonical _ _ _ _ Hdiv) as [Hc _].
        pose proof (canonical_bounds _ _ Hc) as (_ & _ & Hm52).
        rewrite Hdiv. split; [exact I|].
        apply SFleb_finite_pos.
        change (Zpos 4503599627370496) with (2 ^ 52).
        destruct (Z_lt_ge_dec e (-52)) as [Hlo|Hhi]; [left; exact Hlo | right].
        assert (He52 : e = -52).
        { destruct (Z.eq_dec e (-52)); [assumption|].
          specialize (Hm52 ltac:(lia)).
          assert (2 ^ (0 - e) <= 2 ^ 51) by (apply Z.pow_le_mono_r; lia).
          assert (2 ^ 51 < 2 ^ 52) by (apply Z.pow_lt_mono_r; lia).
          lia. }
        split; [exact He52|]. rewrite He52 in Hm. exact Hm.
Qed.

(** ** C8: the weights *)

(** On the path that normalises, the kernel returns the dot product of the
    prepared sample with the clipped weights divided by their sum. *)
Lemma sorted_weighted_mean_normalised
  (v w : list float) (assume_sorted : bool) :
  let u := sort_unless assume_sorted (filter_finite v) in
  let w' := clip_weights w in
  let s := accumulate w' 0 in
  filter_finite v <> [] -> List.length w = List.length u ->
  PrimFloat.leb s 0 = false ->
  exists dot,
    dot_loop u (normalize_weights w' s) (Z.to_nat (size u)) 0 0 = Some dot
    /\ sorted_weighted_mean v w assume_sorted = Ret dot.
Proof.
  intros u w' s Hne Hlen Hs.
  destruct (dot_loop_total u (normalize_weights w' s) (Z.to_nat (size u)) 0 0)
    as [dot Hdot].
  - lia.
  - unfold size. lia.
  - rewrite normalize_weights_length. unfold w'.
    rewrite clip_weights_length, Hlen. unfold size. lia.
  - exists dot. split; [exact Hdot|].
    unfold sorted_weighted_mean. apply empty_false_iff in Hne. rewrite Hne.
    fold u w'.
    replace (size w' =? size u) with true.
    + cbn [negb]. fold s. rewrite Hs, Hdot. reflexivity.
    + symmetry. apply Z.eqb_eq. unfold size, w'.
      rewrite clip_weights_length, Hlen. reflexivity.
Qed.

(** C8.  After clipping every weight is [>= 0]; so the sum of the clipped
    weights is [>= 0] and the fallback test [s <= 0] holds exactly when
    [s == 0]; on the other path the sum by which the weights are divided is
    strictly positive, never zero, every normalised weight lies in
    [[0, 1]], and these normalised weights are the ones that enter the dot
    product the kernel returns. *)
Theorem normalised_weights_in_unit_interval (w : list float) :
  let w' := clip_weights w in
  let s := accumulate w' 0 in
  (forall x, In x w' -> PrimFloat.leb 0 x = true)
  /\ PrimFloat.leb 0 s = true
  /\ PrimFloat.leb s 0 = PrimFloat.eqb s 0
  /\ (PrimFloat.leb s 0 = false ->
      PrimFloat.ltb 0 s = true /\ PrimFloat.eqb s 0 = false
      /\ (forall y, In y (normalize_weights w' s) ->
                    PrimFloat.leb 0 y = true /\ PrimFloat.leb y 1 = true)
      /\ (forall v assume_sorted,
            let u := sort_unless assume_sorted (filter_finite v) in
            filter_finite v <> [] -> List.length w = List.length u ->
            exists dot,
              dot_loop u (normalize_weights w' s) (Z.to_nat (size u)) 0 0
              = Some dot
              /\ sorted_weighted_mean v w assume_sorted = Ret dot)).
Proof.
  intros w' s.
  pose proof (clip_weights_nonneg_finite w) as Hw. fold w' in Hw.
  destruct (accumulate_nonneg w' 0%float I Hw) as (Hs & _ & Hall). fold s in Hs, Hall.
  destruct (nonneg_compare_zero _ Hs) as (H0s & Heq & Hpos).
  split; [|split; [|split; [|]]].
  - intros x Hx. rewrite leb_spec. change (Prim2SF 0) with (S754_zero false).
    rewrite Forall_forall in Hw.
    apply sf_le_zero_nonneg, nonneg_finite_nonneg, Hw, Hx.
  - rewrite leb_spec. exact H0s.
  - rewrite leb_spec, eqb_spec. exact Heq.
  - intros Hs0.
    assert (Hs0' : SFleb (Prim2SF s) (S754_zero false) = false).
    { rewrite leb_spec in Hs0. exact Hs0. }
    destruct (Hpos Hs0') as [Hlt Hne].
    split; [rewrite ltb_spec; exact Hlt|].
    split; [rewrite eqb_spec; exact Hne|].
    split.
    + intros y Hy. unfold normalize_weights in Hy. apply in_map_iff in Hy.
      destruct Hy as (x & <- & Hx).
      rewrite Forall_forall in Hw, Hall.
      destruct (div_nonneg_le_one x s (Hw x Hx) Hs Hs0 (Hall x Hx)) as [Hq Hq1].
      rewrite !leb_spec. change (Prim2SF 0) with (S754_zero false).
      split; [|exact Hq1].
      apply sf_le_zero_nonneg, nonneg_finite_nonneg, Hq.
    + intros v assume_sorted u Hne' Hlen.
      apply sorted_weighted_mean_normalised; assumption.
Qed.

Example normalised_weights_of_a_sample :
  normalize_weights (clip_weights [1; -3; 2; PrimFloat.nan; 1]%float)
    (accumulate (clip_weights [1; -3; 2; PrimFloat.nan; 1]%float) 0)
  = [0.25; 0; 0.5; 0; 0.25]%float.
Proof. vm_compute. reflexivity. Qed.

(** A sum that overflows to [+infinity] sends every normalised weight to
    [0.0], still in [[0, 1]]. *)
Example normalised_weights_overflowing_sum :
  normalize_weights (clip_weights [0x1.fffffffffffffp1023; 0x1.fffffffffffffp1023]%float)
    PrimFloat.infinity = [0; 0]%float
  /\ accumulate (clip_weights [0x1.fffffffffffffp1023; 0x1.fffffffffffffp1023]%float) 0
     = PrimFloat.infinity.
Proof. split; vm_compute; reflexivity. Qed.

(** ** The examples of the specification *)

Example trimmed_mean_of_nothing :
  trimmed_mean [] 0.25 false = Ret quiet_NaN.
Proof. reflexivity. Qed.

Example trimmed_mean_single :
  trimmed_mean [5]%float 0x1.999999999999ap-2 false = Ret 5%float.
Proof. vm_compute. reflexivity. Qed.

Example sorted_weighted_mean_equal_weights :
  sorted_weighted_mean [1; 2; 3]%float [1; 1; 1]%float true = Ret 2%float.
Proof. vm_compute. reflexivity. Qed.

Example sorted_weighted_mean_length_mismatch :
  sorted_weighted_mean [1; 2]%float [1; 2; 3]%float false
  = Throw (invalid_argument "weights length must match values length").
Proof. vm_compute. reflexivity. Qed.

Example sorted_weighted_mean_filtered_length :
  sorted_weighted_mean [1; PrimFloat.nan; 2]%float [1; 2; 3]%float false
  = Throw (invalid_argument "weights length must match values length").
Proof. vm_compute. reflexivity. Qed.

(** * Further properties of the code *)

Lemma shr_1_double (z : Z) :
  0 <= z ->
  shr_1 {| shr_m := z * 2; shr_r := false; shr_s := false |}
  = {| shr_m := z; shr_r := false; shr_s := false |}.
Proof.
  intros Hz. destruct z as [|q|q]; [reflexivity | | lia].
  replace (Zpos q * 2) with (Zpos q~0) by lia. reflexivity.
Qed.

Lemma iter_pos_shr_1_exact (p : positive) :
  forall z, 0 <= z ->
    iter_pos shr_1 p {| shr_m := z * 2 ^ Zpos p; shr_r := false; shr_s := false |}
    = {| shr_m := z; shr_r := false; shr_s := false |}.
Proof.
  induction p as [p IH|p IH|]; intros z Hz; cbn [iter_pos].
  - assert (0 < 2 ^ Zpos p) by pow_pos.
    replace (z * 2 ^ Zpos p~1) with (z * 2 ^ Zpos p * 2 ^ Zpos p * 2)
      by (rewrite pow2_xI; lia).
    rewrite shr_1_double by nia. rewrite IH by nia. apply IH. exact Hz.
  - assert (0 < 2 ^ Zpos p) by pow_pos.
    replace (z * 2 ^ Zpos p~0) with (z * 2 ^ Zpos p * 2 ^ Zpos p)
      by (rewrite pow2_xO; lia).
    rewrite IH by nia. apply IH. exact Hz.
  - change (2 ^ 1) with 2. apply shr_1_double. exact Hz.
Qed.

Lemma Zdigits2_mul_pow2 (m : positive) (p : Z) :
  0 <= p -> Zdigits2 (Zpos m * 2 ^ p) = Zpos (digits2_pos m) + p.
Proof.
  intros Hp. destruct (digits2_pos_bounds m) as [Hlo Hhi].
  assert (H2 : 0 < 2 ^ p) by pow_pos.
  assert (Hle : Zdigits2 (Zpos m * 2 ^ p) <= Zpos (digits2_pos m) + p).
  { apply Zdigits2_le_of_lt; [lia|]. split; [nia|].
    rewrite Z.pow_add_r by lia. nia. }
  assert (Hge : (Zpos (digits2_pos m) - 1 + p) + 1 <= Zdigits2 (Zpos m * 2 ^ p)).
  { apply Zdigits2_ge_of_le; [lia|]. rewrite Z.pow_add_r by lia. nia. }
  lia.
Qed.

(** A representable value given with [p] more low bits, all zero, rounds to
    itself. *)
Lemma binary_round_aux_shifted (s : bool) (m : positive) (e p : Z) :
  0 <= p ->
  fexp64 (Zpos (digits2_pos m) + e) = e -> e <= 971 ->
  bra64 s (Zpos m * 2 ^ p) (e - p) loc_Exact = S754_finite s m e.
Proof.
  intros Hp Hcan He.
  destruct p as [|p|p]; [| |lia].
  - rewrite Z.pow_0_r, Z.mul_1_r, Z.sub_0_r.
    apply binary_round_aux_exact; assumption.
  - assert (Hn : fexp64 (Zpos (digits2_pos m) + Zpos p + (e - Zpos p)) - (e - Zpos p)
                 = Zpos p).
    { replace (Zpos (digits2_pos m) + Zpos p + (e - Zpos p))
        with (Zpos (digits2_pos m) + e) by lia.
      rewrite Hcan. lia. }
    assert (He' : e - Zpos p + Zpos p = e) by lia.
    pose proof (binary_round_aux_exact s m e Hcan He) as Hex.
    unfold binary_round_aux, shr_fexp in *.
    rewrite Zdigits2_mul_pow2 by (clear Hex; lia).
    rewrite Hn.
    cbn [shr shr_record_of_loc].
    rewrite iter_pos_shr_1_exact by (clear Hex; lia).
    rewrite He'.
    change (Zdigits2 (Zpos m)) with (Zpos (digits2_pos m)) in Hex.
    rewrite Hcan, Z.sub_diag in Hex. cbn [shr shr_record_of_loc] in Hex.
    exact Hex.
Qed.

(** ** Exact operations on doubles *)

Lemma isfinite_cases (x : float) :
  isfinite x = true ->
  (exists s, Prim2SF x = S754_zero s)
  \/ (exists s m e, Prim2SF x = S754_finite s m e).
Proof.
  rewrite isfinite_spec.
  destruct (Prim2SF x) as [s|s| |s m e]; try discriminate; intros _.
  - left. exists s. reflexivity.
  - right. exists s, m, e. reflexivity.
Qed.

Lemma SFmul_one_r (s : bool) (m : positive) (e : Z) :
  fexp64 (Zpos (digits2_pos m) + e) = e -> e <= 971 ->
  SF64mul (S754_finite s m e) (S754_finite false 4503599627370496 (-52))
  = S754_finite s m e.
Proof.
  intros Hcan He. unfold SF64mul, SFmul.
  rewrite Pos2Z.inj_mul. change (Zpos 4503599627370496) with (2 ^ 52).
  replace (xorb s false) with s by (destruct s; reflexivity).
  change (e + -52) with (e - 52).
  apply binary_round_aux_shifted; [lia | assumption | assumption].
Qed.

Lemma SFdiv_one_r (s : bool) (m : positive) (e : Z) :
  fexp64 (Zpos (digits2_pos m) + e) = e -> e <= 971 ->
  SF64div (S754_finite s m e) (S754_finite false 4503599627370496 (-52))
  = S754_finite s m e.
Proof.
  intros Hcan He.
  pose proof (canonical_bounds _ _ Hcan) as (Hm53 & Hemin & Hm52).
  unfold SF64div, SFdiv, SFdiv_core_binary.
  replace (xorb s false) with s by (destruct s; reflexivity).
  change (Zdigits2 (Zpos m)) with (Zpos (digits2_pos m)).
  change (Zdigits2 (Zpos 4503599627370496)) with 53.
  set (d := Zpos (digits2_pos m)) in *.
  assert (Hq : forall k p, 0 <= p -> k = 52 + p ->
             Z.div_eucl (Z.shiftl (Zpos m) k) (Zpos 4503599627370496)
             = (Zpos m * 2 ^ p, 0)).
  { intros k p Hp ->.
    destruct (Z.div_eucl (Z.shiftl (Zpos m) (52 + p)) (Zpos 4503599627370496))
      as [q r] eqn:Hdiv.
    assert (Hq : q = Z.shiftl (Zpos m) (52 + p) / Zpos 4503599627370496)
      by (unfold Z.div; rewrite Hdiv; reflexivity).
    assert (Hr : r = Z.shiftl (Zpos m) (52 + p) mod Zpos 4503599627370496)
      by (unfold Z.modulo; rewrite Hdiv; reflexivity).
    rewrite Z.shiftl_mul_pow2 in Hq, Hr by lia.
    rewrite (Z.add_comm 52 p), Z.pow_add_r, Z.mul_assoc in Hq, Hr by lia.
    change (2 ^ 52) with (Zpos 4503599627370496) in Hq, Hr.
    rewrite Z.div_mul in Hq by lia. rewrite Z.mod_mul in Hr by lia.
    subst. reflexivity. }
  rewrite fexp64_eq in Hcan.
  destruct (Z.eq_dec e (-1074)) as [Hee|Hne].
  - assert (He' : Z.min (fexp64 (d + e - (53 + -52))) (e - -52) = e)
      by (rewrite fexp64_eq; lia).
    rewrite He'. replace (e - -52 - e) with 52 by lia. cbv iota.
    rewrite (Hq 52 0 ltac:(lia) eq_refl). rewrite Z.pow_0_r, Z.mul_1_r.
    change (new_location (Zpos 4503599627370496) 0) with loc_Exact.
    apply binary_round_aux_exact; [rewrite fexp64_eq; exact Hcan | exact He].
  - assert (He' : Z.min (fexp64 (d + e - (53 + -52))) (e - -52) = e - 1)
      by (rewrite fexp64_eq; lia).
    rewrite He'. replace (e - -52 - (e - 1)) with 53 by lia. cbv iota.
    rewrite (Hq 53 1 ltac:(lia) eq_refl).
    change (new_location (Zpos 4503599627370496) 0) with loc_Exact.
    apply binary_round_aux_shifted; [lia | rewrite fexp64_eq; exact Hcan | exact He].
Qed.

Lemma mul_one_r (x : float) : isfinite x = true -> (x * 1)%float = x.
Proof.
  intros Hx. apply Prim2SF_inj. rewrite mul_spec.
  change (Prim2SF 1) with (S754_finite false 4503599627370496 (-52)).
  destruct (isfinite_cases x Hx) as [[s Hs]|(s & m & e & Hs)]; rewrite Hs.
  - destruct s; reflexivity.
  - destruct (Prim2SF_finite_canonical _ _ _ _ Hs) as [Hc He].
    apply SFmul_one_r; assumption.
Qed.

Lemma div_one_r (x : float) : isfinite x = true -> (x / 1)%float = x.
Proof.
  intros Hx. apply Prim2SF_inj. rewrite div_spec.
  change (Prim2SF 1) with (S754_finite false 4503599627370496 (-52)).
  destruct (isfinite_cases x Hx) as [[s Hs]|(s & m & e & Hs)]; rewrite Hs.
  - destruct s; reflexivity.
  - destruct (Prim2SF_finite_canonical _ _ _ _ Hs) as [Hc He].
    apply SFdiv_one_r; assumption.
Qed.

(** [0.0 + x] is [x], except that it is [+0.0] for [x = -0.0]. *)
Lemma add_zero_l (x : float) :
  isfinite x = true ->
  isfinite (0 + x) = true /\ PrimFloat.eqb (0 + x) x = true
  /\ (Prim2SF x <> S754_zero true -> (0 + x)%float = x).
Proof.
  intros Hx.
  pose proof (add_spec 0 x) as Ha.
  change (Prim2SF 0) with (S754_zero false) in Ha.
  rewrite isfinite_spec, eqb_spec, Ha.
  destruct (isfinite_cases x Hx) as [[s Hs]|(s & m & e & Hs)]; rewrite Hs in *.
  - destruct s; cbn; repeat split; try congruence.
    intros _. apply Prim2SF_inj. rewrite Ha, Hs. reflexivity.
  - cbn. split; [reflexivity|]. split; [apply SFeqb_refl_finite|].
    intros _. apply Prim2SF_inj. rewrite Ha, Hs. reflexivity.
Qed.

(** ** Rounding never produces NaN *)

Lemma binary_round_aux_not_nan (s : bool) (M E : Z) (l : location) :
  0 <= M -> bra64 s M E l <> S754_nan.
Proof.
  intros HM.
  destruct (binary_round_aux_steps s M E l HM)
    as (m1 & e1 & m1' & m2 & e2 & He1 & Hm1 & Hr & Hex & Hm1lt & Hemin & Hcase & Hres).
  rewrite Hres.
  assert (Hm10 : 0 <= m1).
  { rewrite Hm1. apply Z.div_pos; [lia|]. apply Z.pow_pos_nonneg; [lia|].
    rewrite He1. lia. }
  assert (Hm20 : 0 <= m2) by (destruct Hcase as [(_ & -> & _)|(_ & -> & _)]; lia).
  unfold sf_of_rounded. destruct m2 as [|p|p]; try lia; try discriminate.
  destruct (e2 <=? 971); discriminate.
Qed.

Lemma binary_normalize_not_nan (z e : Z) (sz : bool) :
  binary_normalize prec emax z e sz <> S754_nan.
Proof.
  destruct z as [|p|p]; cbn [binary_normalize]; [discriminate| |];
    unfold binary_round;
    destruct (shl_align p e _) as [mz ez];
    apply binary_round_aux_not_nan; lia.
Qed.

(** A double that is not NaN; one that is zero or finite. *)
Lemma SFadd_not_nan (a x : spec_float) :
  a <> S754_nan ->
  match x with S754_zero _ | S754_finite _ _ _ => True | _ => False end ->
  SF64add a x <> S754_nan.
Proof.
  intros Ha Hx. unfold SF64add, SFadd.
  destruct a as [sa|sa| |sa ma ea]; try congruence;
    destruct x as [sx|sx| |sx mx ex]; try tauto; try discriminate.
  - destruct sa, sx; discriminate.
  - apply binary_normalize_not_nan.
Qed.

Lemma SFdiv_not_nan (a : spec_float) (m : positive) (e : Z) :
  a <> S754_nan -> SF64div a (S754_finite false m e) <> S754_nan.
Proof.
  intros Ha. unfold SF64div, SFdiv.
  destruct a as [sa|sa| |sa ma ea]; try congruence; try discriminate.
  unfold SFdiv_core_binary.
  set (sh := _ - _ - _).
  set (m' := match sh with 0 => Zpos ma | Zpos _ => Z.shiftl (Zpos ma) sh | Zneg _ => 0 end).
  assert (Hm' : 0 <= m').
  { unfold m'. destruct sh; try lia. apply Z.shiftl_nonneg. lia. }
  destruct (Z.div_eucl m' (Zpos m)) as [q r] eqn:Hdiv.
  assert (Hq : q = m' / Zpos m) by (unfold Z.div; rewrite Hdiv; reflexivity).
  apply binary_round_aux_not_nan. rewrite Hq. apply Z.div_pos; lia.
Qed.

Lemma is_nan_spec (x : float) :
  PrimFloat.is_nan x = true <-> Prim2SF x = S754_nan.
Proof.
  unfold PrimFloat.is_nan. rewrite eqb_spec.
  destruct (Prim2SF x) as [s|s| |s m e].
  - split; discriminate.
  - destruct s; split; discriminate.
  - split; reflexivity.
  - rewrite SFeqb_refl_finite. split; discriminate.
Qed.

Lemma isfinite_zero_or_finite (x : float) :
  isfinite x = true ->
  match Prim2SF x with S754_zero _ | S754_finite _ _ _ => True | _ => False end.
Proof.
  rewrite isfinite_spec. destruct (Prim2SF x); try discriminate; trivial.
Qed.

Lemma accumulate_not_nan (l : list float) :
  forall a : float,
    Forall (fun x => isfinite x = true) l ->
    Prim2SF a <> S754_nan -> Prim2SF (accumulate l a) <> S754_nan.
Proof.
  induction l as [|x l IH]; intros a Hl Ha; [exact Ha|].
  inversion Hl as [|x' l' Hx Hl']; subst.
  change (accumulate (x :: l) a) with (accumulate l (a + x)%float).
  apply IH; [exact Hl'|]. rewrite add_spec.
  apply SFadd_not_nan; [exact Ha | apply isfinite_zero_or_finite; exact Hx].
Qed.

(** The average of finitely many finite doubles is not NaN (it may be an
    infinity, when the sum overflows). *)
Lemma average_not_nan (l : list float) (n : Z) :
  Forall (fun x => isfinite x = true) l -> 0 < n < 2 ^ 53 ->
  PrimFloat.is_nan (accumulate l 0 / size_to_double n) = false.
Proof.
  intros Hl Hn.
  destruct (PrimFloat.is_nan _) eqn:E; [|reflexivity].
  apply is_nan_spec in E. rewrite div_spec in E.
  destruct (size_to_double_exact n Hn) as (mn & en & Hnf & _).
  rewrite Hnf in E. apply SFdiv_not_nan in E; [contradiction|].
  apply accumulate_not_nan; [exact Hl | discriminate].
Qed.

(** ** Further properties of [filter_finite] and [mean] *)

Lemma Forall_firstn_finite (P : float -> Prop) (n : nat) (l : list float) :
  Forall P l -> Forall P (firstn n l).
Proof.
  revert l. induction n as [|n IH]; intros l H; [constructor|].
  destruct H; simpl; constructor; auto.
Qed.

Lemma Forall_skipn_finite (P : float -> Prop) (n : nat) (l : list float) :
  Forall P l -> Forall P (skipn n l).
Proof.
  revert l. induction n as [|n IH]; intros l H; [exact H|].
  destruct H; simpl; [constructor | auto].
Qed.

Lemma prepared_all_finite (v : list float) (assume_sorted : bool) :
  Forall (fun x => isfinite x = true) (sort_unless assume_sorted (filter_finite v)).
Proof.
  destruct assume_sorted; cbn [sort_unless negb].
  - apply filter_finite_all.
  - apply (Permutation_Forall (sort_perm (filter_finite v))).
    apply filter_finite_all.
Qed.

(** X1.  [filter_finite] keeps exactly the elements that are neither NaN nor an
    infinity, it works through a concatenation piece by piece, and it leaves
    a sequence unchanged exactly when that sequence has no such element. *)
Theorem filter_finite_keeps_the_finite (v v' : list float) :
  (forall x, In x (filter_finite v) <->
             In x v /\ PrimFloat.is_nan x = false /\ PrimFloat.is_infinity x = false)
  /\ filter_finite (v ++ v') = filter_finite v ++ filter_finite v'
  /\ (filter_finite v = v <-> Forall (fun x => isfinite x = true) v)
  /\ (List.length (filter_finite v) <= List.length v)%nat.
Proof.
  split; [|split; [|split]].
  - intros x. rewrite filter_finite_spec, filter_In.
    unfold isfinite, is_finite.
    destruct (PrimFloat.is_nan x), (PrimFloat.is_infinity x); cbn; intuition congruence.
  - rewrite !filter_finite_spec. apply filter_app.
  - split; [|apply filter_finite_id].
    intros H. rewrite <- H. apply filter_finite_all.
  - rewrite filter_finite_spec. apply filter_length_le.
Qed.

Lemma mean_singleton (x : float) :
  isfinite x = true -> mean [x] = (0 + x)%float.
Proof.
  intros Hx. destruct (add_zero_l x Hx) as (Hf & _ & _).
  unfold mean. cbn [empty accumulate fold_left].
  change (size_to_double (size [x])) with 1%float.
  apply div_one_r. exact Hf.
Qed.

(** X2.  The [mean] of finite doubles is NaN only for the empty sequence: a NaN
    from [mean] always means "no data", never a failed computation (a sum
    that overflows gives an infinity). *)
Theorem mean_nan_iff_empty (v : list float) :
  Forall (fun x => isfinite x = true) v -> size v < 2 ^ 53 ->
  (PrimFloat.is_nan (mean v) = true <-> v = []).
Proof.
  intros Hv Hsz. destruct v as [|y v'].
  - split; reflexivity.
  - split; [|discriminate]. intros Hn.
    rewrite mean_nonempty in Hn by discriminate.
    rewrite average_not_nan in Hn; [discriminate | exact Hv |].
    unfold size in *. cbn [List.length] in *. lia.
Qed.

Lemma mean_nan_iff_empty_witness :
  Forall (fun x => isfinite x = true) [0x1.fffffffffffffp1023; 0x1.fffffffffffffp1023]%float
  /\ PrimFloat.is_nan (mean [0x1.fffffffffffffp1023; 0x1.fffffffffffffp1023]%float) = false
  /\ mean [0x1.fffffffffffffp1023; 0x1.fffffffffffffp1023]%float = PrimFloat.infinity.
Proof.
  assert (H : Forall (fun x => isfinite x = true)
                [0x1.fffffffffffffp1023; 0x1.fffffffffffffp1023]%float)
    by (repeat constructor).
  split; [exact H|]. split; [|vm_compute; reflexivity].
  destruct (PrimFloat.is_nan
              (mean [0x1.fffffffffffffp1023; 0x1.fffffffffffffp1023]%float)) eqn:E;
    [|reflexivity].
  apply (mean_nan_iff_empty _ H) in E; [discriminate | reflexivity].
Defined.

(** ** Further properties of [trimmed_mean] *)

(** X3.  [trimmed_mean] returns NaN exactly when the sample has no finite value
    (on a vector of fewer than [2^53] elements): the NaN sentinel is never
    the result of a computation on data. *)
Theorem trimmed_mean_nan_iff_no_data
  (v : list float) (trim_ratio : float) (assume_sorted : bool) :
  size v < 2 ^ 53 ->
  exists y, trimmed_mean v trim_ratio assume_sorted = Ret y
            /\ (PrimFloat.is_nan y = true <-> filter_finite v = []).
Proof.
  intros Hsz.
  destruct (filter_finite v) as [|x0 v0] eqn:Hf.
  - exists quiet_NaN. unfold trimmed_mean. rewrite Hf.
    split; [reflexivity|]. split; reflexivity.
  - assert (Hne : filter_finite v <> []) by (rewrite Hf; discriminate).
    rewrite <- Hf.
    set (u := sort_unless assume_sorted (filter_finite v)).
    pose proof (size_prepared v assume_sorted Hne Hsz) as Hn. fold u in Hn.
    pose proof (prepared_all_finite v assume_sorted) as Hfin. fold u in Hfin.
    destruct (trim_count_in_range trim_ratio (size u) Hn) as (k & Hk & Hk0).
    destruct (trimmed_mean_branches v trim_ratio assume_sorted k Hne
                ltac:(fold u; lia) Hk ltac:(lia))
      as (_ & _ & Hmean & Hloop).
    fold u in Hmean, Hloop.
    assert (Hu : u <> []).
    { intros E. apply sort_unless_nil_iff in E. contradiction. }
    destruct (Z_le_gt_dec (size u) (2 * k)) as [Hle|Hgt].
    + exists (mean u). split; [apply Hmean; exact Hle|].
      split; [|intros E; contradiction].
      intros Hnan. rewrite mean_nonempty in Hnan by exact Hu.
      rewrite average_not_nan in Hnan; [discriminate | exact Hfin | exact Hn].
    + destruct (Hloop ltac:(lia)) as (_ & _ & Htm).
      eexists. split; [exact Htm|].
      split; [|intros E; contradiction].
      intros Hnan. rewrite average_not_nan in Hnan; [discriminate | | lia].
      unfold slice. apply Forall_firstn_finite, Forall_skipn_finite. exact Hfin.
Qed.

Lemma trimmed_mean_nan_iff_no_data_witness :
  size [0x1.fffffffffffffp1023; 0x1.fffffffffffffp1023; PrimFloat.nan]%float < 2 ^ 53
  /\ exists y,
       trimmed_mean [0x1.fffffffffffffp1023; 0x1.fffffffffffffp1023; PrimFloat.nan]%float
         0.25 false = Ret y
       /\ PrimFloat.is_nan y = false.
Proof.
  assert (H : size [0x1.fffffffffffffp1023; 0x1.fffffffffffffp1023; PrimFloat.nan]%float
              < 2 ^ 53) by reflexivity.
  split; [exact H|].
  destruct (trimmed_mean_nan_iff_no_data
              [0x1.fffffffffffffp1023; 0x1.fffffffffffffp1023; PrimFloat.nan]%float
              0.25 false H) as (y & Hy & Hnan).
  exists y. split; [exact Hy|].
  destruct (PrimFloat.is_nan y); [|reflexivity].
  destruct Hnan as [Hnan _]. specialize (Hnan eq_refl). vm_compute in Hnan.
  discriminate Hnan.
Defined.

(** X4.  A sample with exactly one finite value: whatever the trim ratio and the
    flag, the result compares equal to that value: it is that value, except
    that [-0.0] comes back as [+0.0]. *)
Theorem trimmed_mean_single_value
  (v : list float) (x : float) (trim_ratio : float) (assume_sorted : bool) :
  filter_finite v = [x] ->
  exists y, trimmed_mean v trim_ratio assume_sorted = Ret y
            /\ PrimFloat.eqb y x = true
            /\ (x <> PrimFloat.neg_zero -> y = x)
            /\ (x = PrimFloat.neg_zero -> y = 0%float).
Proof.
  intros Hf.
  assert (Hx : isfinite x = true).
  { pose proof (filter_finite_all v) as H. rewrite Hf in H.
    inversion H; assumption. }
  destruct (add_zero_l x Hx) as (Hfx & Heq & Hid).
  assert (Hne : filter_finite v <> []) by (rewrite Hf; discriminate).
  assert (Hu : sort_unless assume_sorted (filter_finite v) = [x]).
  { rewrite Hf. destruct assume_sorted; reflexivity. }
  destruct (trim_count_in_range trim_ratio 1 ltac:(lia)) as (k & Hk & Hk0).
  pose proof (trimmed_mean_branches v trim_ratio assume_sorted k Hne) as Hb.
  rewrite Hu in Hb. change (size [x]) with 1 in Hb.
  destruct (Hb ltac:(lia) Hk ltac:(lia)) as (_ & _ & Hmean & Hloop).
  exists (0 + x)%float.
  split; [|split; [exact Heq | split]].
  2:{ intros Hnz. apply Hid. intros E. apply Hnz. apply Prim2SF_inj. exact E. }
  2:{ intros ->. reflexivity. }
  destruct (Z_le_gt_dec 1 (2 * k)) as [Hle|Hgt].
  - rewrite (Hmean Hle). rewrite mean_singleton by exact Hx. reflexivity.
  - destruct (Hloop ltac:(lia)) as (_ & _ & Htm).
    assert (k = 0) by lia. subst k. rewrite Htm.
    change (slice [x] 0 (1 - 0)) with [x].
    change (size_to_double (1 - 2 * 0)) with 1%float.
    cbn [accumulate fold_left]. rewrite div_one_r by exact Hfx. reflexivity.
Qed.

Lemma trimmed_mean_single_value_witness :
  filter_finite [PrimFloat.nan; PrimFloat.neg_zero; PrimFloat.infinity]%float
  = [PrimFloat.neg_zero]
  /\ trimmed_mean [PrimFloat.nan; PrimFloat.neg_zero; PrimFloat.infinity]%float
       0.375 true
     = Ret 0%float.
Proof.
  assert (H : filter_finite [PrimFloat.nan; PrimFloat.neg_zero; PrimFloat.infinity]%float
              = [PrimFloat.neg_zero])
    by reflexivity.
  split; [exact H|].
  destruct (trimmed_mean_single_value
              [PrimFloat.nan; PrimFloat.neg_zero; PrimFloat.infinity]%float
              PrimFloat.neg_zero 0.375 true H)
    as (y & Hy & _ & _ & Hz).
  rewrite Hy, (Hz eq_refl). reflexivity.
Defined.

Lemma clamp_ratio_at_least_half (r : float) :
  isfinite r = true -> PrimFloat.leb 0.5 r = true -> clamp_ratio r = 0.5%float.
Proof.
  intros Hf Hle.
  destruct (PrimFloat.ltb 0.5 r) eqn:Hlt;
    [apply clamp_ratio_above_half; assumption|].
  assert (Hr : r = 0.5%float).
  { apply Prim2SF_inj. rewrite leb_spec in Hle. rewrite ltb_spec in Hlt.
    change (Prim2SF 0.5) with (S754_finite false 4503599627370496 (-53)) in *.
    rewrite isfinite_spec in Hf.
    unfold SFleb, SFltb, SFcompare in Hle, Hlt.
    destruct (Prim2SF r) as [s|s| |[] m e]; try discriminate.
    destruct (Z.compare_spec (-53) e) as [He|He|He]; try discriminate.
    change (Pos.compare_cont Eq 4503599627370496 m)
      with (Pos.compare 4503599627370496 m) in *.
    destruct (Pos.compare_spec 4503599627370496 m) as [Hm|Hm|Hm];
      try discriminate.
    subst. reflexivity. }
  rewrite Hr. reflexivity.
Qed.

(** X5.  A trim ratio that is NaN, infinite or negative is not an error: the call
    returns the plain mean of the prepared sample, as for ratio 0. *)
Theorem trimmed_mean_invalid_ratio
  (v : list float) (trim_ratio : float) (assume_sorted : bool) :
  size v < 2 ^ 53 ->
  isfinite trim_ratio = false \/ PrimFloat.ltb trim_ratio 0 = true ->
  trimmed_mean v trim_ratio assume_sorted
  = Ret (mean (sort_unless assume_sorted (filter_finite v))).
Proof.
  intros Hsz H. apply trimmed_mean_clamped_zero; [exact Hsz|].
  destruct H as [H|H];
    [apply clamp_ratio_nonfinite | apply clamp_ratio_negative]; exact H.
Qed.

Lemma trimmed_mean_invalid_ratio_witness :
  size [4; 1; 100; 3; 2]%float < 2 ^ 53
  /\ trimmed_mean [4; 1; 100; 3; 2]%float PrimFloat.nan false = Ret 22%float
  /\ trimmed_mean [4; 1; 100; 3; 2]%float (-0.25) false = Ret 22%float.
Proof.
  assert (H : size [4; 1; 100; 3; 2]%float < 2 ^ 53) by reflexivity.
  split; [exact H|]. split.
  - rewrite (trimmed_mean_invalid_ratio [4; 1; 100; 3; 2]%float PrimFloat.nan false H);
      [vm_compute; reflexivity | left; reflexivity].
  - rewrite (trimmed_mean_invalid_ratio [4; 1; 100; 3; 2]%float (-0.25) false H);
      [vm_compute; reflexivity | right; reflexivity].
Defined.

(** X6.  A trim ratio of one half or more does not give the median: the call
    returns the plain mean of the prepared sample, outliers included.  For a
    finite ratio the trim count [k] satisfies [2*k >= n] and the guard of
    line 32 is taken; [+infinity] is first replaced by [0.0], so that
    [k = 0], the guard is not taken and the loop sums the whole sample. *)
Theorem trimmed_mean_ratio_half_is_mean
  (v : list float) (trim_ratio : float) (assume_sorted : bool) :
  let u := sort_unless assume_sorted (filter_finite v) in
  let n := size u in
  size v < 2 ^ 53 ->
  PrimFloat.leb 0.5 trim_ratio = true ->
  trimmed_mean v trim_ratio assume_sorted = Ret (mean u)
  /\ (filter_finite v <> [] ->
      exists ll, trim_count (clamp_ratio trim_ratio) n = Some ll
        /\ if isfinite trim_ratio
           then (n <=? wrap64 (2 * wrap64 ll)) = true
           else ll = 0 /\ (n <=? wrap64 (2 * wrap64 ll)) = false).
Proof.
  intros u n Hsz Hle. split.
  - destruct (isfinite trim_ratio) eqn:Hf.
    + apply trimmed_mean_clamped_half; [exact Hsz|].
      apply clamp_ratio_at_least_half; assumption.
    + apply trimmed_mean_clamped_zero; [exact Hsz|].
      apply clamp_ratio_nonfinite. exact Hf.
  - intros Hne.
    pose proof (size_prepared v assume_sorted Hne Hsz) as Hn.
    fold u in Hn. fold n in Hn.
    destruct (isfinite trim_ratio) eqn:Hf.
    + rewrite (clamp_ratio_at_least_half trim_ratio Hf Hle).
      destruct (trim_count_half n Hn) as (k & Hk & Hk0 & Hge).
      exists k. split; [exact Hk|].
      rewrite (wrap64_small k), (wrap64_small (2 * k)) by lia.
      apply Z.leb_le. exact Hge.
    + rewrite (clamp_ratio_nonfinite trim_ratio Hf).
      exists 0. split.
      * unfold trim_count, llround. rewrite mul_spec.
        destruct (size_to_double_exact n Hn) as (mn & en & Hnf & _).
        rewrite Hnf. reflexivity.
      * split; [reflexivity|]. change (wrap64 (2 * wrap64 0)) with 0.
        apply Z.leb_gt. lia.
Qed.

Lemma trimmed_mean_ratio_half_is_mean_witness :
  size [4; 1; 100; 3; 2]%float < 2 ^ 53
  /\ trimmed_mean [4; 1; 100; 3; 2]%float 0.5 false = Ret 22%float
  /\ trimmed_mean [4; 1; 100; 3; 2]%float PrimFloat.infinity false = Ret 22%float.
Proof.
  assert (H : size [4; 1; 100; 3; 2]%float < 2 ^ 53) by reflexivity.
  split; [exact H|]. split.
  - destruct (trimmed_mean_ratio_half_is_mean [4; 1; 100; 3; 2]%float 0.5 false H)
      as [E _]; [reflexivity|].
    rewrite E. vm_compute. reflexivity.
  - destruct (trimmed_mean_ratio_half_is_mean
                [4; 1; 100; 3; 2]%float PrimFloat.infinity false H)
      as [E _]; [reflexivity|].
    rewrite E. vm_compute. reflexivity.
Defined.

(** ** Sorting inside the kernel or before the call *)

(** X7.  Letting the kernel sort is the same as passing it the sorted finite
    values with [assume_sorted = true]. *)
Theorem sorting_inside_or_before
  (v w : list float) (trim_ratio : float) :
  trimmed_mean v trim_ratio false
  = trimmed_mean (sort (filter_finite v)) trim_ratio true
  /\ sorted_weighted_mean v w false
     = sorted_weighted_mean (sort (filter_finite v)) w true.
Proof.
  assert (H : filter_finite (sort (filter_finite v)) = sort (filter_finite v)).
  { apply filter_finite_id.
    apply (Permutation_Forall (sort_perm (filter_finite v))).
    apply filter_finite_all. }
  assert (He : empty (sort (filter_finite v)) = empty (filter_finite v)).
  { destruct (filter_finite v) as [|x l] eqn:E; [reflexivity|].
    destruct (sort (x :: l)) eqn:Es; [|reflexivity].
    apply (f_equal (@List.length float)) in Es. rewrite sort_length in Es.
    discriminate. }
  unfold trimmed_mean, sorted_weighted_mean. rewrite H, He.
  split; reflexivity.
Qed.

(** ** The order of the input does not matter *)

Lemma SFltb_finite_same_sign (s : bool) (m1 m2 : positive) (e1 e2 : Z) :
  SFltb (S754_finite s m1 e1) (S754_finite s m2 e2) = true
  <-> if s then e2 < e1 \/ (e2 = e1 /\ Zpos m2 < Zpos m1)
      else e1 < e2 \/ (e1 = e2 /\ Zpos m1 < Zpos m2).
Proof.
  unfold SFltb, SFcompare.
  change (Pos.compare_cont Eq m1 m2) with (Pos.compare m1 m2).
  destruct s;
    destruct (Z.compare_spec e1 e2) as [He|He|He];
    try destruct (Pos.compare_spec m1 m2) as [Hm|Hm|Hm];
    cbn; split; intros H; try reflexivity; try discriminate; try lia.
Qed.

Lemma SFltb_trans (x y z : spec_float) :
  SFltb x y = true -> SFltb y z = true -> SFltb x z = true.
Proof.
  destruct x as [sx|sx| |sx mx ex], y as [sy|sy| |sy my ey],
           z as [sz|sz| |sz mz ez];
    try destruct sx; try destruct sy; try destruct sz;
    try (intros; discriminate); try (intros; reflexivity).
  all: rewrite !SFltb_finite_same_sign; lia.
Qed.

(** Among doubles that are neither NaN nor [-0.0], two that are not ordered
    by [<] either way are the same. *)
Lemma SFltb_total (x y : spec_float) :
  x <> S754_nan -> y <> S754_nan ->
  x <> S754_zero true -> y <> S754_zero true ->
  SFltb x y = false -> SFltb y x = false -> x = y.
Proof.
  intros Hx Hy Hx0 Hy0.
  destruct x as [sx|sx| |sx mx ex], y as [sy|sy| |sy my ey];
    try congruence;
    try destruct sx; try destruct sy; try congruence;
    try (intros; discriminate).
  all: intros H1 H2.
  all: assert (N1 : ~ (SFltb (S754_finite _ mx ex) (S754_finite _ my ey) = true))
      by (rewrite H1; discriminate).
  all: assert (N2 : ~ (SFltb (S754_finite _ my ey) (S754_finite _ mx ex) = true))
      by (rewrite H2; discriminate).
  all: rewrite SFltb_finite_same_sign in N1, N2; cbn beta iota in N1, N2.
  all: assert (E : ex = ey /\ Zpos mx = Zpos my) by lia.
  all: destruct E as [-> Hm]; injection Hm as ->; reflexivity.
Qed.

Lemma ltb_trans (x y z : float) :
  PrimFloat.ltb x y = true -> PrimFloat.ltb y z = true -> PrimFloat.ltb x z = true.
Proof. rewrite !ltb_spec. apply SFltb_trans. Qed.

Lemma neg_zero_spec (x : float) :
  x <> PrimFloat.neg_zero <-> Prim2SF x <> S754_zero true.
Proof.
  split; intros H E; apply H.
  - apply Prim2SF_inj. rewrite E. reflexivity.
  - rewrite E. reflexivity.
Qed.

Lemma ltb_total (x y : float) :
  isfinite x = true -> isfinite y = true ->
  x <> PrimFloat.neg_zero -> y <> PrimFloat.neg_zero ->
  PrimFloat.ltb x y = false -> PrimFloat.ltb y x = false -> x = y.
Proof.
  rewrite !isfinite_spec, !ltb_spec, !neg_zero_spec.
  intros Hx Hy Hx0 Hy0 H1 H2. apply Prim2SF_inj.
  apply SFltb_total; try assumption.
  - intros E. rewrite E in Hx. discriminate.
  - intros E. rewrite E in Hy. discriminate.
Qed.

Lemma sort_insert_comm (a b : float) (l : list float) :
  isfinite a = true -> isfinite b = true ->
  a <> PrimFloat.neg_zero -> b <> PrimFloat.neg_zero ->
  sort_insert a (sort_insert b l) = sort_insert b (sort_insert a l).
Proof.
  intros Ha Hb Ha0 Hb0.
  assert (Hab : forall t,
             (if PrimFloat.ltb a b then a :: b :: t else b :: a :: t)
             = (if PrimFloat.ltb b a then b :: a :: t else a :: b :: t)).
  { intros t. destruct (PrimFloat.ltb a b) eqn:E1, (PrimFloat.ltb b a) eqn:E2;
      try reflexivity.
    - apply ltb_asym in E1. congruence.
    - rewrite (ltb_total a b Ha Hb Ha0 Hb0 E1 E2). reflexivity. }
  induction l as [|y l IH].
  - cbn [sort_insert]. apply Hab.
  - cbn [sort_insert].
    destruct (PrimFloat.ltb b y) eqn:Eb, (PrimFloat.ltb a y) eqn:Ea;
      cbn [sort_insert]; rewrite ?Ea, ?Eb.
    + specialize (Hab (y :: l)).
      destruct (PrimFloat.ltb a b), (PrimFloat.ltb b a); exact Hab.
    + destruct (PrimFloat.ltb a b) eqn:Eab; [|reflexivity].
      rewrite (ltb_trans a b y Eab Eb) in Ea. discriminate.
    + destruct (PrimFloat.ltb b a) eqn:Eba; [|reflexivity].
      rewrite (ltb_trans b a y Eba Ea) in Eb. discriminate.
    + rewrite IH. reflexivity.
Qed.

Lemma sort_perm_eq (l l' : list float) :
  Permutation l l' ->
  Forall (fun x => isfinite x = true /\ x <> PrimFloat.neg_zero) l ->
  sort l = sort l'.
Proof.
  induction 1 as [|x l l' Hp IH|x y l|l l' l'' Hp1 IH1 Hp2 IH2]; intros Hok.
  - reflexivity.
  - inversion Hok; subst.
    change (sort_insert x (sort l) = sort_insert x (sort l')).
    rewrite IH by assumption. reflexivity.
  - inversion Hok as [|? ? [Hy Hy0] Hok']; subst.
    inversion Hok' as [|? ? [Hx Hx0] _]; subst.
    change (sort_insert y (sort_insert x (sort l))
            = sort_insert x (sort_insert y (sort l))).
    apply sort_insert_comm; assumption.
  - rewrite IH1 by assumption. apply IH2.
    apply (Permutation_Forall Hp1). exact Hok.
Qed.

Lemma filter_finite_perm (l l' : list float) :
  Permutation l l' -> Permutation (filter_finite l) (filter_finite l').
Proof.
  rewrite !filter_finite_spec.
  induction 1 as [|x l l' Hp IH|x y l|l l' l'' Hp1 IH1 Hp2 IH2]; cbn [filter].
  - constructor.
  - destruct (isfinite x); [constructor|]; exact IH.
  - destruct (isfinite x), (isfinite y); try reflexivity. apply perm_swap.
  - eapply perm_trans; eassumption.
Qed.

(** X8.  With [assume_sorted = false] both kernels depend on the sample only up to
    the order of its elements, for samples without [-0.0] (which [std::sort]
    does not tell from [+0.0]). *)
Theorem input_order_is_irrelevant
  (v v' w : list float) (trim_ratio : float) :
  Permutation v v' ->
  Forall (fun x => x <> PrimFloat.neg_zero) v ->
  trimmed_mean v trim_ratio false = trimmed_mean v' trim_ratio false
  /\ sorted_weighted_mean v w false = sorted_weighted_mean v' w false.
Proof.
  intros Hp Hnz.
  pose proof (filter_finite_perm v v' Hp) as Hfp.
  assert (Hok : Forall (fun x => isfinite x = true /\ x <> PrimFloat.neg_zero)
                  (filter_finite v)).
  { apply Forall_forall. intros x Hx. split.
    - pose proof (filter_finite_all v) as H. rewrite Forall_forall in H. auto.
    - rewrite Forall_forall in Hnz. apply Hnz.
      rewrite filter_finite_spec in Hx. apply filter_In in Hx. tauto. }
  pose proof (sort_perm_eq _ _ Hfp Hok) as Hs.
  assert (He : empty (filter_finite v) = empty (filter_finite v')).
  { apply Permutation_length in Hfp.
    destruct (filter_finite v), (filter_finite v'); try discriminate; reflexivity. }
  unfold trimmed_mean, sorted_weighted_mean.
  cbn [sort_unless negb]. rewrite Hs, He. split; reflexivity.
Qed.

Lemma input_order_is_irrelevant_witness :
  Permutation [3; 1; 2]%float [1; 2; 3]%float
  /\ trimmed_mean [3; 1; 2]%float 0.25 false = trimmed_mean [1; 2; 3]%float 0.25 false.
Proof.
  assert (Hp : Permutation [3; 1; 2]%float [1; 2; 3]%float).
  { apply perm_trans with [1; 3; 2]%float; [apply perm_swap|].
    apply perm_skip, perm_swap. }
  split; [exact Hp|].
  apply (input_order_is_irrelevant [3; 1; 2]%float [1; 2; 3]%float [] 0.25 Hp).
  repeat constructor; intros E; apply (f_equal Prim2SF) in E;
    vm_compute in E; discriminate E.
Defined.

(** ** Further properties of [sorted_weighted_mean] *)

(** The dot-product loop over two vectors of one length is a left fold over
    the pairs. *)
Lemma dot_loop_from (pv pw v w : list float) :
  forall dot : float,
    List.length pv = List.length pw -> List.length v = List.length w ->
    dot_loop (pv ++ v) (pw ++ w) (List.length v) (Z.of_nat (List.length pv)) dot
    = Some (fold_left (fun d p => (d + fst p * snd p)%float) (combine v w) dot).
Proof.
  revert pv pw w. induction v as [|x v IH]; intros pv pw w dot Hp Hl.
  - reflexivity.
  - destruct w as [|y w]; [discriminate|].
    cbn [List.length dot_loop combine fold_left fst snd].
    rewrite Nat2Z.id.
    rewrite !nth_error_app2 by lia. rewrite Nat.sub_diag.
    replace (List.length pv - List.length pw)%nat with 0%nat by lia.
    cbn [nth_error].
    replace (Z.of_nat (List.length pv) + 1) with (Z.of_nat (List.length (pv ++ [x])))
      by (rewrite length_app; cbn; lia).
    replace (pv ++ x :: v) with ((pv ++ [x]) ++ v) by (rewrite <- app_assoc; reflexivity).
    replace (pw ++ y :: w) with ((pw ++ [y]) ++ w) by (rewrite <- app_assoc; reflexivity).
    apply IH; [rewrite !length_app; cbn; lia | cbn in Hl; lia].
Qed.

Lemma dot_loop_fold (v w : list float) (dot : float) :
  List.length v = List.length w ->
  dot_loop v w (Z.to_nat (size v)) 0 dot
  = Some (fold_left (fun d p => (d + fst p * snd p)%float) (combine v w) dot).
Proof.
  intros Hl. unfold size. rewrite Nat2Z.id.
  apply (dot_loop_from [] [] v w dot eq_refl Hl).
Qed.

(** The body of [sorted_weighted_mean] once the sample is known to hold a
    finite value and the lengths to agree. *)
Lemma sorted_weighted_mean_body (v w : list float) (assume_sorted : bool) :
  let u := sort_unless assume_sorted (filter_finite v) in
  let w' := clip_weights w in
  let s := accumulate w' 0 in
  filter_finite v <> [] -> List.length w = List.length u ->
  sorted_weighted_mean v w assume_sorted
  = if PrimFloat.leb s 0 then Ret (mean u)
    else Ret (fold_left (fun d p => (d + fst p * snd p)%float)
                (combine u (normalize_weights w' s)) 0%float).
Proof.
  intros u w' s Hne Hlen. unfold sorted_weighted_mean.
  apply empty_false_iff in Hne. rewrite Hne. fold u w'.
  replace (size w' =? size u) with true
    by (symmetry; apply Z.eqb_eq; unfold size, w';
        rewrite clip_weights_length, Hlen; reflexivity).
  cbn [negb]. fold s. destruct (PrimFloat.leb s 0); [reflexivity|].
  rewrite dot_loop_fold; [reflexivity|].
  rewrite normalize_weights_length. unfold w'.
  rewrite clip_weights_length. symmetry. exact Hlen.
Qed.

Lemma Prim2SF_zero_eq (x : float) :
  Prim2SF x = S754_zero false -> x = 0%float.
Proof. intros H. apply Prim2SF_inj. rewrite H. reflexivity. Qed.

(** A weight that is not a positive finite number is clipped to a zero. *)
Lemma clip_weight_nonpositive (x : float) :
  isfinite x = false \/ PrimFloat.leb x 0 = true ->
  exists s, Prim2SF (clip_weight x) = S754_zero s.
Proof.
  unfold clip_weight. rewrite isfinite_spec, leb_spec, ltb_spec.
  change (Prim2SF 0) with (S754_zero false).
  destruct (Prim2SF x) as [s|s| |[] m e] eqn:E; cbn; intros [H|H];
    try discriminate; rewrite ?E; eauto.
Qed.

Lemma accumulate_zeros (l : list float) :
  forall a : float,
    Prim2SF a = S754_zero false ->
    Forall (fun x => exists s, Prim2SF x = S754_zero s) l ->
    Prim2SF (accumulate l a) = S754_zero false.
Proof.
  induction l as [|x l IH]; intros a Ha Hl; [exact Ha|].
  inversion Hl as [|x' l' [s Hx] Hl']; subst.
  change (accumulate (x :: l) a) with (accumulate l (a + x)%float).
  apply IH; [|exact Hl']. rewrite add_spec, Ha, Hx. destruct s; reflexivity.
Qed.

(** X9.  When no weight is a positive finite number (each is NaN, infinite,
    negative or zero), the weights are ignored: the result is the plain mean
    of the prepared sample. *)
Theorem no_positive_weight_gives_mean (v w : list float) (assume_sorted : bool) :
  let u := sort_unless assume_sorted (filter_finite v) in
  List.length w = List.length u ->
  Forall (fun x => isfinite x = false \/ PrimFloat.leb x 0 = true) w ->
  sorted_weighted_mean v w assume_sorted = Ret (mean u).
Proof.
  intros u Hlen Hw.
  assert (Hd : filter_finite v = [] \/ filter_finite v <> [])
    by (destruct (filter_finite v); [left; reflexivity | right; discriminate]).
  destruct Hd as [Hf|Hne].
  - assert (Hu : u = []) by (apply sort_unless_nil_iff; exact Hf).
    unfold sorted_weighted_mean. rewrite Hf, Hu. reflexivity.
  - rewrite (sorted_weighted_mean_body v w assume_sorted Hne Hlen).
    assert (Hs : Prim2SF (accumulate (clip_weights w) 0) = S754_zero false).
    { apply accumulate_zeros; [reflexivity|].
      unfold clip_weights. apply Forall_map.
      apply Forall_impl with (2 := Hw). apply clip_weight_nonpositive. }
    rewrite (Prim2SF_zero_eq _ Hs). reflexivity.
Qed.

Lemma no_positive_weight_gives_mean_witness :
  sorted_weighted_mean [3; 1; 2]%float
    [PrimFloat.nan; PrimFloat.infinity; (-2)%float] false = Ret 2%float.
Proof.
  rewrite (no_positive_weight_gives_mean [3; 1; 2]%float
             [PrimFloat.nan; PrimFloat.infinity; (-2)%float] false).
  - vm_compute. reflexivity.
  - reflexivity.
  - constructor; [left; reflexivity|].
    constructor; [left; reflexivity|].
    constructor; [right; reflexivity | constructor].
Defined.

Lemma eqb_zero_spec (z : float) :
  PrimFloat.eqb z 0 = true <-> exists s, Prim2SF z = S754_zero s.
Proof.
  rewrite eqb_spec. change (Prim2SF 0) with (S754_zero false).
  destruct (Prim2SF z) as [s|s| |s m e].
  - split; [eauto | reflexivity].
  - split; [destruct s; discriminate | intros [? ?]; discriminate].
  - split; [discriminate | intros [? ?]; discriminate].
  - split; [destruct s; discriminate | intros [? ?]; discriminate].
Qed.

(** A double that is [+0.0] or finite and not zero is unchanged by adding a
    zero of either sign. *)
Lemma add_zero_r (d z : float) :
  Prim2SF d = S754_zero false \/ (exists s m e, Prim2SF d = S754_finite s m e) ->
  (exists s, Prim2SF z = S754_zero s) ->
  (d + z)%float = d.
Proof.
  intros Hd [s Hz]. apply Prim2SF_inj. rewrite add_spec, Hz.
  destruct Hd as [Hd|(sd & m & e & Hd)]; rewrite Hd.
  - destruct s; reflexivity.
  - reflexivity.
Qed.

Lemma mul_finite_zero (x y : float) :
  isfinite x = true -> (exists s, Prim2SF y = S754_zero s) ->
  exists s, Prim2SF (x * y) = S754_zero s.
Proof.
  intros Hx [s Hy]. rewrite mul_spec, Hy.
  destruct (isfinite_cases x Hx) as [[sx Hs]|(sx & m & e & Hs)]; rewrite Hs;
    cbn; eauto.
Qed.

Lemma accumulate_adds_nothing (l : list float) (d : float) :
  Prim2SF d = S754_zero false \/ (exists s m e, Prim2SF d = S754_finite s m e) ->
  Forall (fun z => exists s, Prim2SF z = S754_zero s) l ->
  accumulate l d = d.
Proof.
  intros Hd Hl. induction Hl as [|z l Hz Hl IH]; [reflexivity|].
  change (accumulate (z :: l) d) with (accumulate l (d + z)%float).
  rewrite (add_zero_r d z Hd Hz). exact IH.
Qed.

Lemma dot_adds_nothing (ps : list (float * float)) (d : float) :
  Prim2SF d = S754_zero false \/ (exists s m e, Prim2SF d = S754_finite s m e) ->
  Forall (fun p => isfinite (fst p) = true
                   /\ exists s, Prim2SF (snd p) = S754_zero s) ps ->
  fold_left (fun d p => (d + fst p * snd p)%float) ps d = d.
Proof.
  intros Hd Hl. induction Hl as [|p ps [Hx Hy] Hl IH]; [reflexivity|].
  cbn [fold_left].
  rewrite (add_zero_r d _ Hd (mul_finite_zero _ _ Hx Hy)). exact IH.
Qed.

Lemma Forall_combine (P : float -> Prop) (Q : float -> Prop) (a b : list float) :
  Forall P a -> Forall Q b ->
  Forall (fun p => P (fst p) /\ Q (snd p)) (combine a b).
Proof.
  intros Ha. revert b. induction Ha as [|x a Hx Ha IH]; intros b Hb; [constructor|].
  destruct Hb as [|y b Hy Hb]; cbn; constructor; auto.
Qed.

Lemma combine_app_cons (a b c d : list float) (x y : float) :
  List.length a = List.length c ->
  combine (a ++ x :: b) (c ++ y :: d) = combine a c ++ (x, y) :: combine b d.
Proof.
  revert c. induction a as [|x0 a IH]; intros [|y0 c] H; try discriminate.
  - reflexivity.
  - cbn. f_equal. apply IH. cbn in H. lia.
Qed.

(** X10.  When the sum of the clipped weights overflows to [+infinity], every
    normalised weight is a zero and the call returns [0.0], whatever the
    sample. *)
Theorem weight_sum_overflow_gives_zero (v w : list float) (assume_sorted : bool) :
  let u := sort_unless assume_sorted (filter_finite v) in
  let s := accumulate (clip_weights w) 0 in
  filter_finite v <> [] -> List.length w = List.length u ->
  s = PrimFloat.infinity ->
  Forall (fun x => PrimFloat.eqb x 0 = true) (normalize_weights (clip_weights w) s)
  /\ sorted_weighted_mean v w assume_sorted = Ret 0%float.
Proof.
  intros u s Hne Hlen Hs.
  assert (Hz : Forall (fun y => exists b, Prim2SF y = S754_zero b)
                 (normalize_weights (clip_weights w) PrimFloat.infinity)).
  { unfold normalize_weights. apply Forall_map.
    apply Forall_impl with (2 := clip_weights_nonneg_finite w).
    intros x Hx. rewrite div_spec.
    change (Prim2SF PrimFloat.infinity) with (S754_infinity false).
    destruct (Prim2SF x) as [b|b| |[] m e]; cbn in Hx; try tauto; cbn; eauto. }
  split.
  - rewrite Hs. apply Forall_impl with (2 := Hz).
    intros x Hx. apply eqb_zero_spec. exact Hx.
  - rewrite (sorted_weighted_mean_body v w assume_sorted Hne Hlen).
    fold s. rewrite Hs.
    change (PrimFloat.leb PrimFloat.infinity 0) with false. cbv iota.
    f_equal. apply dot_adds_nothing; [left; reflexivity|].
    apply (Forall_combine (fun x => isfinite x = true)
             (fun y => exists b, Prim2SF y = S754_zero b));
      [apply prepared_all_finite | exact Hz].
Qed.

Lemma weight_sum_overflow_gives_zero_witness :
  Forall (fun x => PrimFloat.eqb x 0 = true)
    (normalize_weights
       (clip_weights [0x1.fffffffffffffp1023; 0x1.fffffffffffffp1023]%float)
       PrimFloat.infinity)
  /\ sorted_weighted_mean [3; 1]%float
       [0x1.fffffffffffffp1023; 0x1.fffffffffffffp1023]%float false = Ret 0%float.
Proof.
  apply (weight_sum_overflow_gives_zero [3; 1]%float
           [0x1.fffffffffffffp1023; 0x1.fffffffffffffp1023]%float false).
  - vm_compute. discriminate.
  - reflexivity.
  - vm_compute. reflexivity.
Defined.

Lemma add_zero_l_shape (y : float) :
  isfinite y = true ->
  Prim2SF (0 + y) = S754_zero false
  \/ (exists s m e, Prim2SF (0 + y) = S754_finite s m e).
Proof.
  intros Hy. rewrite add_spec. change (Prim2SF 0) with (S754_zero false).
  destruct (isfinite_cases y Hy) as [[s Hs]|(s & m & e & Hs)]; rewrite Hs.
  - left. destruct s; reflexivity.
  - right. exists s, m, e. reflexivity.
Qed.

(** X11.  All the weight on one position: when the clipped weight at position [i]
    is positive and every other clipped weight is zero, the call returns the
    element at position [i] of the prepared sample (the [i]-th smallest
    finite value when the kernel sorts), up to the sign of a zero. *)
Theorem single_positive_weight_selects
  (v w : list float) (assume_sorted : bool) (i : nat) (x y : float) :
  let u := sort_unless assume_sorted (filter_finite v) in
  let w' := clip_weights w in
  List.length w = List.length u ->
  nth_error u i = Some y -> nth_error w' i = Some x ->
  PrimFloat.ltb 0 x = true ->
  (forall j z, j <> i -> nth_error w' j = Some z -> PrimFloat.eqb z 0 = true) ->
  exists d, sorted_weighted_mean v w assume_sorted = Ret d
            /\ PrimFloat.eqb d y = true
            /\ (y <> PrimFloat.neg_zero -> d = y).
Proof.
  intros u w' Hlen Hy Hx Hpos Hzero.
  assert (Hne : filter_finite v <> []).
  { intros E. assert (Hu : u = []) by (apply sort_unless_nil_iff; exact E).
    rewrite Hu in Hy. destruct i; discriminate. }
  destruct (nth_error_split _ _ Hy) as (a & b & Hu & Ha).
  destruct (nth_error_split _ _ Hx) as (z1 & z2 & Hw & Hz1).
  (* the weights around position [i] are zeros *)
  assert (Hz1z : Forall (fun z => exists s, Prim2SF z = S754_zero s) z1).
  { apply Forall_forall. intros z Hin. apply eqb_zero_spec.
    destruct (In_nth_error _ _ Hin) as [j Hj].
    assert (Hlt : (j < List.length z1)%nat) by (apply nth_error_Some; congruence).
    apply (Hzero j z); [lia|]. rewrite Hw, nth_error_app1 by lia. exact Hj. }
  assert (Hz2z : Forall (fun z => exists s, Prim2SF z = S754_zero s) z2).
  { apply Forall_forall. intros z Hin. apply eqb_zero_spec.
    destruct (In_nth_error _ _ Hin) as [j Hj].
    apply (Hzero (List.length z1 + S j)%nat z); [lia|].
    rewrite Hw, nth_error_app2 by lia.
    replace (List.length z1 + S j - List.length z1)%nat with (S j) by lia.
    exact Hj. }
  (* the positive weight is a finite positive double *)
  assert (Hxf : exists m e, Prim2SF x = S754_finite false m e).
  { pose proof (clip_weights_nonneg_finite w) as Hall. fold w' in Hall.
    rewrite Forall_forall in Hall.
    specialize (Hall x (nth_error_In _ _ Hx)).
    rewrite ltb_spec in Hpos. change (Prim2SF 0) with (S754_zero false) in Hpos.
    destruct (Prim2SF x) as [s|s| |[] m e]; cbn in Hall; try tauto;
      try discriminate.
    exists m, e. reflexivity. }
  destruct Hxf as (mx & ex & Hxf).
  assert (Hxfin : isfinite x = true) by (rewrite isfinite_spec, Hxf; reflexivity).
  (* the sum of the clipped weights is that weight *)
  assert (Hs : accumulate w' 0 = x).
  { rewrite Hw. unfold accumulate. rewrite fold_left_app. cbn [fold_left].
    fold (accumulate z1 0). rewrite (accumulate_adds_nothing z1 0) by (auto; left; reflexivity).
    destruct (add_zero_l x Hxfin) as (_ & _ & Hid).
    rewrite Hid by (rewrite Hxf; discriminate).
    apply accumulate_adds_nothing; [right; eauto | exact Hz2z]. }
  assert (Hone : (x / x)%float = 1%float).
  { apply Prim2SF_inj. rewrite div_spec, Hxf. apply SFdiv_self. }
  assert (Hnz : forall l, Forall (fun z => exists s, Prim2SF z = S754_zero s) l ->
                  Forall (fun z => exists s, Prim2SF z = S754_zero s)
                    (normalize_weights l x)).
  { intros l Hl. unfold normalize_weights. apply Forall_map.
    apply Forall_impl with (2 := Hl). intros z [s Hz].
    rewrite div_spec, Hz, Hxf. cbn. eauto. }
  pose proof (prepared_all_finite v assume_sorted) as Hfin. fold u in Hfin.
  rewrite Hu in Hfin. apply Forall_app in Hfin. destruct Hfin as [Hfa Hfyb].
  apply Forall_cons_iff in Hfyb. destruct Hfyb as [Hfy Hfb].
  destruct (add_zero_l y Hfy) as (_ & Heq & Hid).
  exists (0 + y)%float. split; [|split; [exact Heq|]].
  - rewrite (sorted_weighted_mean_body v w assume_sorted Hne Hlen).
    fold u w'. rewrite Hs.
    replace (PrimFloat.leb x 0) with false
      by (rewrite leb_spec, Hxf; reflexivity).
    f_equal. rewrite Hw. unfold normalize_weights. rewrite map_app. cbn [map].
    rewrite Hone. rewrite Hu at 1.
    rewrite combine_app_cons by (rewrite length_map; lia).
    rewrite fold_left_app. cbn [fold_left fst snd].
    rewrite (dot_adds_nothing (combine a (map (fun z => (z / x)%float) z1)) 0%float);
      [| left; reflexivity |].
    + rewrite mul_one_r by exact Hfy.
      apply dot_adds_nothing; [apply add_zero_l_shape; exact Hfy|].
      apply (Forall_combine (fun x => isfinite x = true)
               (fun y => exists s, Prim2SF y = S754_zero s));
        [exact Hfb | apply (Hnz z2 Hz2z)].
    + apply (Forall_combine (fun x => isfinite x = true)
               (fun y => exists s, Prim2SF y = S754_zero s));
        [exact Hfa | apply (Hnz z1 Hz1z)].
  - intros Hy0. apply Hid. apply neg_zero_spec. exact Hy0.
Qed.

Lemma single_positive_weight_selects_witness :
  exists d, sorted_weighted_mean [3; 1; 2]%float [0; (-5); 0.375]%float false = Ret d
            /\ PrimFloat.eqb d 3 = true.
Proof.
  destruct (single_positive_weight_selects [3; 1; 2]%float [0; (-5); 0.375]%float
              false 2 0.375 3) as (d & Hd & Heq & _).
  - reflexivity.
  - reflexivity.
  - reflexivity.
  - reflexivity.
  - intros [|[|[|j]]] z Hj Hz; try (injection Hz as <-; reflexivity).
    + contradiction.
    + destruct j; discriminate.
  - exists d. split; [exact Hd | exact Heq].
Defined.

(** ** The flag is an optimisation *)

Lemma sort_insert_head (l : list float) :
  forall x : float,
    Forall (fun x => isfinite x = true /\ x <> PrimFloat.neg_zero) (x :: l) ->
    Sorted (fun a b => PrimFloat.ltb b a = false) (x :: l) ->
    sort_insert x l = x :: l.
Proof.
  induction l as [|y l IH]; intros x Hok Hs; [reflexivity|].
  cbn [sort_insert]. destruct (PrimFloat.ltb x y) eqn:Exy; [reflexivity|].
  inversion Hs as [|? ? Hs' Hhd]; subst. inversion Hhd as [|? ? Hyx]; subst.
  inversion Hok as [|? ? [Hx Hx0] Hok']; subst.
  inversion Hok' as [|? ? [Hy Hy0] _]; subst.
  rewrite (ltb_total x y Hx Hy Hx0 Hy0 Exy Hyx).
  rewrite (IH y Hok' Hs'). reflexivity.
Qed.

Lemma sort_sorted_id (l : list float) :
  Forall (fun x => isfinite x = true /\ x <> PrimFloat.neg_zero) l ->
  Sorted (fun a b => PrimFloat.ltb b a = false) l ->
  sort l = l.
Proof.
  induction l as [|x l IH]; intros Hok Hs; [reflexivity|].
  change (sort (x :: l)) with (sort_insert x (sort l)).
  inversion Hs; subst. inversion Hok; subst.
  rewrite IH by assumption. apply sort_insert_head; assumption.
Qed.

(** X12.  When the finite values of the sample are already ascending (and none is
    [-0.0]), [assume_sorted] changes nothing in the result of either
    kernel. *)
Theorem assume_sorted_only_skips_the_sort
  (v w : list float) (trim_ratio : float) :
  Sorted (fun a b => PrimFloat.ltb b a = false) (filter_finite v) ->
  Forall (fun x => x <> PrimFloat.neg_zero) v ->
  trimmed_mean v trim_ratio true = trimmed_mean v trim_ratio false
  /\ sorted_weighted_mean v w true = sorted_weighted_mean v w false.
Proof.
  intros Hs Hnz.
  assert (Hok : Forall (fun x => isfinite x = true /\ x <> PrimFloat.neg_zero)
                  (filter_finite v)).
  { apply Forall_forall. intros x Hx. split.
    - pose proof (filter_finite_all v) as H. rewrite Forall_forall in H. auto.
    - rewrite Forall_forall in Hnz. apply Hnz.
      rewrite filter_finite_spec in Hx. apply filter_In in Hx. tauto. }
  unfold trimmed_mean, sorted_weighted_mean. cbn [sort_unless negb].
  rewrite (sort_sorted_id _ Hok Hs). split; reflexivity.
Qed.

Lemma assume_sorted_only_skips_the_sort_witness :
  trimmed_mean [1; PrimFloat.nan; 2; 2; 7]%float 0.25 true
  = trimmed_mean [1; PrimFloat.nan; 2; 2; 7]%float 0.25 false.
Proof.
  apply (assume_sorted_only_skips_the_sort [1; PrimFloat.nan; 2; 2; 7]%float [] 0.25).
  - change (filter_finite [1; PrimFloat.nan; 2; 2; 7]%float) with [1; 2; 2; 7]%float.
    repeat constructor.
  - repeat constructor; intros E; apply (f_equal Prim2SF) in E;
      vm_compute in E; discriminate E.
Defined.

(** ** The Python binding *)

Lemma as_vector_size (info : buffer_info) (v : list float) :
  as_vector info = Some v ->
  (ndim info = 0 /\ v = [])
  \/ (ndim info <> 0 /\ size v = wrap64 (buffer_size info)
      /\ v = firstn (Z.to_nat (size v)) (ptr info)).
Proof.
  unfold as_vector. destruct (Z.eqb_spec (ndim info) 0) as [H0|H0].
  - intros H. injection H as <-. left. split; [exact H0 | reflexivity].
  - destruct (Z.leb_spec (wrap64 (buffer_size info)) (size (ptr info))) as [Hle|Hgt];
      [|discriminate].
    intros H. injection H as <-. right. split; [exact H0|].
    assert (Hsz : size (firstn (Z.to_nat (wrap64 (buffer_size info))) (ptr info))
                  = wrap64 (buffer_size info)).
    { unfold size in *. rewrite length_firstn.
      assert (0 <= wrap64 (buffer_size info))
        by (unfold wrap64; apply Z.mod_pos_bound; reflexivity).
      lia. }
    split; [exact Hsz|]. rewrite Hsz. reflexivity.
Qed.

(** X13.  A 0-dimensional array (a NumPy scalar) is read as the empty sequence, not
    as its one element: [trimmed_mean] and [sorted_weighted] return NaN for
    scalar values, and [sorted_weighted] throws for scalar weights as soon
    as the values hold a finite number. *)
Theorem scalar_arrays_are_empty
  (values weights : buffer_info) (trim_ratio : option float)
  (assume_sorted : option bool) :
  ndim values = 0 ->
  py_trimmed_mean values trim_ratio assume_sorted = Ret quiet_NaN
  /\ (forall w, as_vector weights = Some w ->
        py_sorted_weighted values weights assume_sorted = Ret quiet_NaN)
  /\ (forall v, as_vector weights = Some v -> filter_finite v <> [] ->
        py_sorted_weighted weights values assume_sorted
        = Throw (invalid_argument "weights length must match values length")).
Proof.
  intros H0.
  assert (Hv : as_vector values = Some []).
  { unfold as_vector. rewrite H0. reflexivity. }
  unfold py_trimmed_mean, py_sorted_weighted. rewrite Hv.
  split; [reflexivity|]. split.
  - intros w Hw. rewrite Hw. reflexivity.
  - intros v Hw Hne. rewrite Hw. unfold sorted_weighted_mean.
    apply empty_false_iff in Hne. rewrite Hne.
    replace (size (clip_weights []) =? size (sort_unless _ (filter_finite v)))
      with false; [reflexivity|].
    symmetry. apply Z.eqb_neq. rewrite size_sort_unless.
    apply empty_false_iff in Hne. rewrite <- size_zero_iff in Hne.
    change (size (clip_weights [])) with 0. lia.
Qed.

Lemma scalar_arrays_are_empty_witness :
  py_trimmed_mean {| ndim := 0; buffer_size := 1; ptr := [5%float] |} None None
  = Ret quiet_NaN.
Proof.
  apply (scalar_arrays_are_empty
           {| ndim := 0; buffer_size := 1; ptr := [5%float] |}
           {| ndim := 1; buffer_size := 1; ptr := [1%float] |} None None).
  reflexivity.
Defined.

(** X14.  With the default arguments ([trim_ratio = 0.10], sorting on), a sample
    with one to four finite values is not trimmed, and one with five to
    fourteen loses exactly its smallest and its largest value. *)
Theorem default_ratio_on_small_samples (values : buffer_info) (v : list float) :
  as_vector values = Some v ->
  let u := sort (filter_finite v) in
  let n := size u in
  (1 <= n <= 4 -> py_trimmed_mean values None None = Ret (mean u))
  /\ (5 <= n <= 14 ->
      py_trimmed_mean values None None
      = Ret (PrimFloat.div (accumulate (slice u 1 (n - 1)) 0)
                           (size_to_double (n - 2)))).
Proof.
  intros Hv u n. unfold py_trimmed_mean. rewrite Hv.
  assert (Hne : 1 <= n -> filter_finite v <> []).
  { intros H E. unfold n, u in H. rewrite E in H. cbn in H. lia. }
  assert (Hc : clamp_ratio default_trim_ratio = default_trim_ratio) by reflexivity.
  split; intros Hn.
  - assert (Hk : trim_count (clamp_ratio default_trim_ratio) n = Some 0).
    { rewrite Hc.
      assert (E : n = 1 \/ n = 2 \/ n = 3 \/ n = 4) by lia.
      destruct E as [E|[E|[E|E]]]; rewrite E; vm_compute; reflexivity. }
    pose proof (trimmed_mean_branches v default_trim_ratio false 0 (Hne ltac:(lia)))
      as Hb.
    cbv zeta in Hb. change (sort_unless false (filter_finite v)) with u in Hb.
    fold n in Hb.
    destruct (Hb ltac:(lia) Hk ltac:(lia)) as (_ & _ & _ & Hloop).
    destruct (Hloop ltac:(lia)) as (_ & _ & Htm).
    rewrite Htm. unfold n. rewrite slice_all, mean_nonempty.
    + do 3 f_equal. lia.
    + intros E. unfold n in Hn. rewrite E in Hn. cbn in Hn. lia.
  - assert (Hk : trim_count (clamp_ratio default_trim_ratio) n = Some 1).
    { rewrite Hc.
      assert (E : n = 5 \/ n = 6 \/ n = 7 \/ n = 8 \/ n = 9 \/ n = 10 \/ n = 11
                  \/ n = 12 \/ n = 13 \/ n = 14) by lia.
      destruct E as [E|[E|[E|[E|[E|[E|[E|[E|[E|E]]]]]]]]];
        rewrite E; vm_compute; reflexivity. }
    pose proof (trimmed_mean_branches v default_trim_ratio false 1 (Hne ltac:(lia)))
      as Hb.
    cbv zeta in Hb. change (sort_unless false (filter_finite v)) with u in Hb.
    fold n in Hb.
    destruct (Hb ltac:(lia) Hk ltac:(lia)) as (_ & _ & _ & Hloop).
    destruct (Hloop ltac:(lia)) as (_ & _ & Htm).
    rewrite Htm. reflexivity.
Qed.

Lemma default_ratio_on_small_samples_witness :
  py_trimmed_mean
    {| ndim := 1; buffer_size := 5; ptr := [4; 1; 100; 3; 2]%float |} None None
  = Ret 3%float.
Proof.
  destruct (default_ratio_on_small_samples
              {| ndim := 1; buffer_size := 5; ptr := [4; 1; 100; 3; 2]%float |}
              [4; 1; 100; 3; 2]%float eq_refl) as [_ H].
  rewrite H by (vm_compute; split; discriminate).
  vm_compute. reflexivity.
Defined.
